(** * vanillacoin: the peer connection manager and the mining manager

    A shallow embedding of [tcp_connection_manager.cpp],
    [mining_manager.cpp] and the parts of [configuration.cpp] they read.

    Conventions.
    - Machine integers are [Z] with the wrap-around of their C++ type
      written out ([wrap32], [wrap64]).
    - Objects owned by collaborators (transports, peer connections, the
      address manager, the wallet, the io_service) are not under [src/];
      they appear through what their getters return and through the list
      of calls the managers make on them (an effect trace, oldest first).
    - [log_debug], [log_info] and [log_error] only print diagnostics and
      are left out of the effect traces. *)

From Stdlib Require Import ZArith List Bool String QArith Lia.
From stdpp Require Import base option gmap strings list fin_maps.

Local Open Scope Z_scope.

(** ** Machine arithmetic *)

Definition wrap32 (z : Z) : Z := z mod 2 ^ 32.
Definition wrap64 (z : Z) : Z := z mod 2 ^ 64.

(** ** How a call ends

    [returned]: the call ran to its end.  [thrown]: a C++ exception left
    the function.  [assert_failed]: an [assert] aborted the process.
    [undefined]: the call read the front or the first slot of an empty
    container.  Each carries the state reached at that point. *)

Inductive outcome (A : Type) : Type :=
| returned (a : A)
| thrown (a : A)
| assert_failed (a : A)
| undefined (a : A).
Arguments returned {A} a.
Arguments thrown {A} a.
Arguments assert_failed {A} a.
Arguments undefined {A} a.

Definition outcome_state {A} (o : outcome A) : A :=
  match o with
  | returned a | thrown a | assert_failed a | undefined a => a
  end.

Definition is_returned {A} (o : outcome A) : bool :=
  match o with returned _ => true | _ => false end.

(** ** configuration.cpp *)

Module Configuration.

Record configuration := {
  m_network_port_tcp : Z;
  m_network_tcp_inbound_maximum : Z;
  m_args : gmap string string;
  (* declared in configuration.hpp; read by tcp_connection_manager::start *)
  m_bootstrap_nodes : list (string * Z)
}.

Definition args (c : configuration) : gmap string string := m_args c.

Definition set_args (val : gmap string string) (c : configuration)
  : configuration :=
  {| m_network_port_tcp := m_network_port_tcp c;
     m_network_tcp_inbound_maximum := m_network_tcp_inbound_maximum c;
     m_args := val;
     m_bootstrap_nodes := m_bootstrap_nodes c |}.

Definition network_port_tcp (c : configuration) : Z := m_network_port_tcp c.

(* [tcp_inbound_minimum] is network::tcp_inbound_minimum (network.hpp). *)
Definition set_network_tcp_inbound_maximum (tcp_inbound_minimum val : Z)
    (c : configuration) : configuration :=
  {| m_network_port_tcp := m_network_port_tcp c;
     m_network_tcp_inbound_maximum :=
       if val <? tcp_inbound_minimum then tcp_inbound_minimum else val;
     m_args := m_args c;
     m_bootstrap_nodes := m_bootstrap_nodes c |}.

Definition network_tcp_inbound_maximum (c : configuration) : Z :=
  m_network_tcp_inbound_maximum c.

Definition bootstrap_nodes (c : configuration) : list (string * Z) :=
  m_bootstrap_nodes c.

End Configuration.

(** ** tcp_connection_manager.cpp *)

Module TcpConnectionManager.
Import Configuration.

(** boost::asio::ip::address as its numeric value, and tcp::endpoint. *)
Definition ip_address := N.
Bind Scope N_scope with ip_address.

Record endpoint := Endpoint { address : ip_address; port : N }.

#[global] Instance endpoint_eq_dec : EqDecision endpoint.
Proof. solve_decision. Defined.

#[global] Instance endpoint_countable : Countable endpoint.
Proof.
  apply (inj_countable' (fun e => (address e, port e))
                        (fun p => Endpoint (fst p) (snd p))).
  intros []; reflexivity.
Defined.

(** protocol::network_address_t: the fields tick reads.  Its methods
    ([is_valid], [is_local], [group], [ipv4_mapped_address]) are in
    [Collaborators] below. *)
Record network_address_t := {
  na_address : ip_address;
  na_port : N;
  timestamp : Z;
  last_try : Z
}.

(** tcp_transport, seen through [socket().remote_endpoint()], which throws
    while the socket is not connected ([None]). *)
Record tcp_transport := {
  transport_id : N;
  remote_endpoint : option endpoint
}.

Inductive direction_t := direction_incoming | direction_outgoing.

(** tcp_connection, seen through [is_transport_valid()] and
    [get_tcp_transport().lock()]. *)
Record tcp_connection := {
  direction : direction_t;
  is_transport_valid : bool;
  get_tcp_transport : option tcp_transport
}.

(** A [std::weak_ptr<tcp_connection>] is what [lock()] yields:
    [None] once the connection is destroyed. *)
Definition weak_ptr := option tcp_connection.

(** Calls made on collaborators. *)
Inductive effect :=
| transport_stop (t : tcp_transport)
| connection_start (t : tcp_transport)     (* connection->start() *)
| connection_start_to (ep : endpoint)      (* connection->start(ep) *)
| connection_stop (ep : endpoint)          (* stop() of the entry keyed ep *)
| on_connection_attempt (a : network_address_t)
| address_manager_add (a src : network_address_t)
| address_manager_select (bias : Z)
| resolver_async_resolve (host : string) (service : Z)
| timer_expires_from_now (seconds : Z)     (* then async_wait(tick) *)
| status_insert (value : string) (connections : Z)
(* ghost: tick reached its call of connect for candidate [a], read at
   adjusted time [adjusted] while the table was [peers] *)
| tick_calls_connect (a : network_address_t) (adjusted : Z)
    (peers : gmap endpoint weak_ptr).

Record manager := {
  m_tcp_connections : gmap endpoint weak_ptr;
  stack_configuration : configuration;
  effects : list effect
}.

Definition emit (e : effect) (m : manager) : manager :=
  {| m_tcp_connections := m_tcp_connections m;
     stack_configuration := stack_configuration m;
     effects := effects m ++ [e] |}.

Definition set_tcp_connections (t : gmap endpoint weak_ptr) (m : manager)
  : manager :=
  {| m_tcp_connections := t;
     stack_configuration := stack_configuration m;
     effects := effects m |}.

(** A resolver query: host name and service (the port, printed). *)
Definition query := (string * Z)%type.

(** What the manager consumes from code outside [src/]. *)
Class Collaborators := {
  (* network::instance().is_address_banned(address.to_string()) *)
  is_address_banned : ip_address -> bool;
  (* protocol::network_address_t::from_endpoint *)
  from_endpoint : endpoint -> network_address_t;
  is_valid : network_address_t -> bool;
  is_local : network_address_t -> bool;
  group : network_address_t -> list Z;
  ipv4_mapped_address : network_address_t -> ip_address;
  (* the enumerator tcp_connection_manager::minimum_tcp_connections *)
  minimum_tcp_connections : Z;
  minimum_tcp_connections_range : 0 <= minimum_tcp_connections < 2 ^ 31;
  (* address_manager::select, by the index of the top-up iteration *)
  select : Z -> Z -> network_address_t;
  (* time::instance().get_adjusted(), by the index of the top-up iteration *)
  get_adjusted : Z -> Z;
  (* the conversion of the integer type in which
     [get_adjusted() - addr.last_try] is computed *)
  time_wrap : Z -> Z;
  time_wrap_small : forall z, 0 <= z < 600 -> time_wrap z = z;
  (* what the stored weak pointer observes of a connection the manager
     allocated and started, incoming over a transport or outgoing *)
  incoming_connection : tcp_transport -> weak_ptr;
  outgoing_connection : endpoint -> weak_ptr;
  (* std::random_shuffle on the query vector *)
  random_shuffle : list query -> list query;
  random_shuffle_perm : forall l, Permutation (random_shuffle l) l;
  (* the resolver's answer to a query: [None] when the error code is set *)
  resolve : query -> option endpoint
}.

Section Manager.
Context `{Collaborators}.

(** Lines 118-138: the scan for an entry with the transport's IP.  When
    [remote_endpoint()] throws, every comparison is caught and the flag
    stays false. *)
Definition is_duplicate (t : tcp_transport)
    (tbl : gmap endpoint weak_ptr) : bool :=
  match remote_endpoint t with
  | None => false
  | Some ep =>
      existsb (fun i => N.eqb (address (fst i)) (address ep))
              (map_to_list tbl)
  end.

Definition handle_accept (transport : tcp_transport) (m : manager)
  : outcome manager :=
  if is_duplicate transport (m_tcp_connections m) then
    returned (emit (transport_stop transport) m)
  else
    match remote_endpoint transport with
    | None => thrown m   (* line 153, outside any try block *)
    | Some ep =>
        if is_address_banned (address ep) then
          returned (emit (transport_stop transport) m)
        else if Z.of_nat (size (m_tcp_connections m)) >=?
                network_tcp_inbound_maximum (stack_configuration m) then
          returned (emit (transport_stop transport) m)
        else
          returned
            (emit (connection_start transport)
               (set_tcp_connections
                  (<[ep := incoming_connection transport]>
                     (m_tcp_connections m)) m))
    end.

Definition connect (ep : endpoint) (m : manager) : bool * manager :=
  if is_address_banned (address ep) then (false, m)
  else
    match m_tcp_connections m !! ep with
    | None =>
        let m1 := emit (on_connection_attempt (from_endpoint ep)) m in
        let m2 := set_tcp_connections
                    (<[ep := outgoing_connection ep]> (m_tcp_connections m1))
                    m1 in
        (true, emit (connection_start_to ep) m2)
    | Some _ => (false, m)
    end.

(** Lines 298-319: the prune loop, one table entry at a time. *)
Definition prune_entry (m : manager) (it : endpoint * weak_ptr) : manager :=
  match snd it with
  | Some connection =>
      if is_transport_valid connection then m
      else
        let m1 := emit (connection_stop (fst it)) m in
        set_tcp_connections (delete (fst it) (m_tcp_connections m1)) m1
  | None => set_tcp_connections (delete (fst it) (m_tcp_connections m)) m
  end.

Definition prune (m : manager) : manager :=
  fold_left prune_entry (map_to_list (m_tcp_connections m)) m.

(** Lines 342-368: is the candidate in the group of a peer whose
    connection and transport are alive and whose remote endpoint can be
    read? *)
Definition peer_in_group (addr : network_address_t)
    (i : endpoint * weak_ptr) : bool :=
  match snd i with
  | Some j =>
      match get_tcp_transport j with
      | Some k =>
          match remote_endpoint k with
          | Some e => bool_decide (group addr = group (from_endpoint e))
          | None => false
          end
      | None => false
      end
  | None => false
  end.

Definition is_in_same_group (addr : network_address_t)
    (tbl : gmap endpoint weak_ptr) : bool :=
  existsb (peer_in_group addr) (map_to_list tbl).

(** Lines 331-413: the body of the top-up loop at counter [i]. *)
Definition topup_step (i : Z) (m : manager) : manager :=
  let bias := 10 + Z.min (Z.of_nat (size (m_tcp_connections m))) 8 * 10 in
  let addr := select i bias in
  let m1 := emit (address_manager_select bias) m in
  if negb (is_valid addr) || is_local addr
     || is_in_same_group addr (m_tcp_connections m1) then m1
  else
    let adjusted := get_adjusted i in
    if time_wrap (adjusted - last_try addr) <? 600 then m1
    else
      snd (connect (Endpoint (ipv4_mapped_address addr) (na_port addr))
             (emit (tick_calls_connect addr adjusted (m_tcp_connections m1))
                m1)).

(** The [for] loop of lines 326-414.  Its bound is read again at each
    turn; [None] only if the fuel runs out first. *)
Fixpoint topup (fuel : nat) (i : Z) (m : manager) : option manager :=
  if i <? wrap64 (minimum_tcp_connections
                  - Z.of_nat (size (m_tcp_connections m))) then
    match fuel with
    | O => None
    | S fuel' => topup fuel' (i + 1) (topup_step i m)
    end
  else Some m.

Definition publish_status (m : manager) : manager :=
  let n := Z.of_nat (size (m_tcp_connections m)) in
  emit (status_insert (if 0 <? n then "Connected" else "Connecting") n) m.

(** [ec] is true when the timer handler is given an error code. *)
Definition tick (ec : bool) (m : manager) : option manager :=
  if ec then Some m
  else
    let m1 := prune m in
    if Z.of_nat (size (m_tcp_connections m1))
       <? wrap64 (minimum_tcp_connections + 1) then
      match topup (Z.to_nat minimum_tcp_connections) 0 m1 with
      | Some m2 => Some (publish_status (emit (timer_expires_from_now 8) m2))
      | None => None
      end
    else Some (publish_status (emit (timer_expires_from_now 8) m1)).

(** Lines 458-470: the call itself, up to handing the front query to the
    resolver. *)
Definition do_resolve (queries : list query) (m : manager)
  : outcome manager :=
  if 100 <? Z.of_nat (length queries) then assert_failed m
  else
    match head queries with
    | None => undefined m
    | Some q => returned (emit (resolver_async_resolve (fst q) (snd q)) m)
    end.

Definition localhost : ip_address := 2130706433%N.

(** Lines 471-522: the completion handler that captured [queries], run
    with the resolver's answer. *)
Definition do_resolve_handler (queries : list query) (it : option endpoint)
    (m : manager) : outcome manager :=
  let m1 :=
    match it with
    | None => m
    | Some ep =>
        emit (address_manager_add (from_endpoint ep)
                (from_endpoint (Endpoint localhost 0))) m
    end in
  if 0 <? Z.of_nat (length queries) then
    let tmp := tail queries in
    if 0 <? Z.of_nat (length tmp) then do_resolve tmp m1 else returned m1
  else returned m1.

(** The handlers run one after the other on the strand: [pending] is the
    list captured by the handler now waiting for the resolver. *)
Fixpoint completions (pending : list query) (m : manager)
  : outcome manager :=
  match pending with
  | [] => returned m
  | q :: tmp =>
      match do_resolve_handler pending (resolve q) m with
      | returned m1 => completions tmp m1
      | o => o
      end
  end.

Definition start (m : manager) : outcome manager :=
  let queries :=
    random_shuffle
      (map (fun i : string * Z => (fst i, snd i))
           (bootstrap_nodes (stack_configuration m))) in
  match do_resolve queries m with
  | returned m1 => returned (emit (timer_expires_from_now 1) m1)
  | o => o
  end.

End Manager.

End TcpConnectionManager.

(** ** mining_manager.cpp *)

Module MiningManager.
Import Configuration.

(** Modelled from the spec: the enumerations [state_pow_t] and
    [state_pos_t] of mining_manager.hpp, which is not under [src/]; the
    spec's data model lists their values in the order
    none, starting, started, stopping, stopped. *)
Inductive state_t :=
| state_none | state_starting | state_started | state_stopping
| state_stopped.

#[global] Instance state_eq_dec : EqDecision state_t.
Proof. solve_decision. Defined.

(** The enumerator values, used by the [<] of lines 94 and 233. *)
Definition state_value (s : state_t) : Z :=
  match s with
  | state_none => 0
  | state_starting => 1
  | state_started => 2
  | state_stopping => 3
  | state_stopped => 4
  end.

(** A sha256 value as the 256-bit number its comparisons order it by. *)
Definition sha256 := Z.

(** A script as the sequence of items appended to it. *)
Inductive script_item :=
| push_integer (n : Z)        (* script << height *)
| push_big_number (n : Z)     (* script << big_number(extra_nonce) *)
| push_bytes (b : list Z).
Definition script := list script_item.

Record transaction_in := { script_signature : script }.

Definition set_script_signature (s : script) (i : transaction_in)
  : transaction_in := {| script_signature := s |}.

Record transaction := {
  transactions_in : list transaction_in;
  transaction_time : Z
}.

Record header_t := {
  hash_previous_block : sha256;
  hash_merkle_root : sha256;
  header_timestamp : Z;
  bits : Z;
  nonce : Z
}.

Record block := {
  header : header_t;
  transactions : list transaction
}.

Record block_index := { height : Z }.

(** A worker thread handle: which loop it runs, and [joinable()]. *)
Record thread := {
  is_proof_of_stake : bool;
  joinable : bool
}.

(** Closures posted onto the io_service. *)
Inductive task :=
| insert_mining_status          (* lines 179-209 *)
| process_block (blk : block).  (* lines 716-729: process_block(0, blk) *)

Inductive mining_effect :=
| set_state_pow (s : state_t)
| set_state_pos (s : state_t)
| thread_spawn (t : thread)
| thread_join (t : thread)
| keep_key                      (* reserve_key.keep_key() *)
| io_service_post (t : task).

Record mining_manager := {
  m_state_pow : state_t;
  m_state_pos : state_t;
  m_hashes_per_second : Q;
  m_hps_timer_start : Z;
  threads_ : list thread;
  thread_pos_ : option thread;
  get_configuration : configuration;
  mining_effects : list mining_effect
}.

(** The constructor, lines 39-51. *)
Definition mining_manager_new (c : configuration) : mining_manager :=
  {| m_state_pow := state_none;
     m_state_pos := state_none;
     m_hashes_per_second := 0%Q;
     m_hps_timer_start := 0;
     threads_ := [];
     thread_pos_ := None;
     get_configuration := c;
     mining_effects := [] |}.

Definition emit_mining (e : mining_effect) (m : mining_manager)
  : mining_manager :=
  {| m_state_pow := m_state_pow m; m_state_pos := m_state_pos m;
     m_hashes_per_second := m_hashes_per_second m;
     m_hps_timer_start := m_hps_timer_start m;
     threads_ := threads_ m; thread_pos_ := thread_pos_ m;
     get_configuration := get_configuration m;
     mining_effects := mining_effects m ++ [e] |}.

Definition write_state_pow (s : state_t) (m : mining_manager)
  : mining_manager :=
  emit_mining (set_state_pow s)
    {| m_state_pow := s; m_state_pos := m_state_pos m;
       m_hashes_per_second := m_hashes_per_second m;
       m_hps_timer_start := m_hps_timer_start m;
       threads_ := threads_ m; thread_pos_ := thread_pos_ m;
       get_configuration := get_configuration m;
       mining_effects := mining_effects m |}.

Definition write_state_pos (s : state_t) (m : mining_manager)
  : mining_manager :=
  emit_mining (set_state_pos s)
    {| m_state_pow := m_state_pow m; m_state_pos := s;
       m_hashes_per_second := m_hashes_per_second m;
       m_hps_timer_start := m_hps_timer_start m;
       threads_ := threads_ m; thread_pos_ := thread_pos_ m;
       get_configuration := get_configuration m;
       mining_effects := mining_effects m |}.

Definition set_threads (ts : list thread) (m : mining_manager)
  : mining_manager :=
  {| m_state_pow := m_state_pow m; m_state_pos := m_state_pos m;
     m_hashes_per_second := m_hashes_per_second m;
     m_hps_timer_start := m_hps_timer_start m;
     threads_ := ts; thread_pos_ := thread_pos_ m;
     get_configuration := get_configuration m;
     mining_effects := mining_effects m |}.

Definition set_thread_pos (t : option thread) (m : mining_manager)
  : mining_manager :=
  {| m_state_pow := m_state_pow m; m_state_pos := m_state_pos m;
     m_hashes_per_second := m_hashes_per_second m;
     m_hps_timer_start := m_hps_timer_start m;
     threads_ := threads_ m; thread_pos_ := t;
     get_configuration := get_configuration m;
     mining_effects := mining_effects m |}.

Definition set_hashes_per_second (q : Q) (m : mining_manager)
  : mining_manager :=
  {| m_state_pow := m_state_pow m; m_state_pos := m_state_pos m;
     m_hashes_per_second := q;
     m_hps_timer_start := m_hps_timer_start m;
     threads_ := threads_ m; thread_pos_ := thread_pos_ m;
     get_configuration := get_configuration m;
     mining_effects := mining_effects m |}.

Definition set_hps_timer_start (z : Z) (m : mining_manager)
  : mining_manager :=
  {| m_state_pow := m_state_pow m; m_state_pos := m_state_pos m;
     m_hashes_per_second := m_hashes_per_second m;
     m_hps_timer_start := z;
     threads_ := threads_ m; thread_pos_ := thread_pos_ m;
     get_configuration := get_configuration m;
     mining_effects := mining_effects m |}.

Definition hashes_per_second (m : mining_manager) : Q :=
  m_hashes_per_second m.

(** Lines 117-127: [for (auto i = 0; i < cores; i++)]. *)
Fixpoint spawn_pow_threads (cores : nat) (m : mining_manager)
  : mining_manager :=
  match cores with
  | O => m
  | S n =>
      let t := {| is_proof_of_stake := false; joinable := true |} in
      let m1 := emit_mining (thread_spawn t) m in
      spawn_pow_threads n (set_threads (threads_ m1 ++ [t]) m1)
  end.

Definition start_proof_of_work (m : mining_manager) : mining_manager :=
  if (state_value (m_state_pow m) <? state_value state_starting)
     || bool_decide (m_state_pow m = state_stopped) then
    let m1 := write_state_pow state_starting m in
    let cores := 1%nat in
    let m2 := spawn_pow_threads cores m1 in
    write_state_pow state_started m2
  else m.

(** Lines 155-168: join every joinable thread. *)
Definition join_thread (m : mining_manager) (i : thread) : mining_manager :=
  if joinable i then emit_mining (thread_join i) m else m.

Definition join_threads (m : mining_manager) : mining_manager :=
  fold_left join_thread (threads_ m) m.

Definition stop_proof_of_work (m : mining_manager) : mining_manager :=
  if bool_decide (m_state_pow m = state_started) then
    let m1 := write_state_pow state_stopping m in
    let m2 := join_threads m1 in
    let m3 := set_hashes_per_second 0%Q m2 in
    let m4 := emit_mining (io_service_post insert_mining_status) m3 in
    let m5 := set_hps_timer_start 0 m4 in
    let m6 := set_threads [] m5 in
    write_state_pow state_stopped m6
  else m.

Definition start_proof_of_stake (m : mining_manager) : mining_manager :=
  if (state_value (m_state_pos m) <? state_value state_starting)
     || bool_decide (m_state_pos m = state_stopped) then
    let m1 := write_state_pos state_starting m in
    let t := {| is_proof_of_stake := true; joinable := true |} in
    let m2 := set_thread_pos (Some t) (emit_mining (thread_spawn t) m1) in
    write_state_pos state_started m2
  else m.

Definition stop_proof_of_stake (m : mining_manager) : mining_manager :=
  if bool_decide (m_state_pos m = state_started) then
    let m1 := write_state_pos state_stopping m in
    let m2 :=
      match thread_pos_ m1 with
      | Some t => emit_mining (thread_join t) m1
      | None => m1
      end in
    write_state_pos state_stopped m2
  else m.

Definition stop (m : mining_manager) : mining_manager :=
  stop_proof_of_work (stop_proof_of_stake m).

Section Start.
(** [std::stoi]: [None] where it throws. *)
Variable stoi : string -> option Z.

Definition start (m : mining_manager) : outcome mining_manager :=
  let m1 := start_proof_of_stake m in
  match args (get_configuration m1) !! "mine-cpu"%string with
  | Some it =>
      match stoi it with
      | Some n =>
          if 0 <? n then returned (start_proof_of_work m1) else returned m1
      | None => thrown m1
      end
  | None => returned m1
  end.

End Start.

(** What check_work and increment_extra_nonce read from code outside
    [src/]. *)
Class BlockOps := {
  get_hash : block -> sha256;
  is_proof_of_work : block -> bool;
  (* big_number().set_compact(bits).get_sha256() *)
  compact_target : Z -> sha256;
  build_merkle_tree : block -> sha256;
  (* globals::instance().coinbase_flags() *)
  coinbase_flags : script;
  (* script::size(), the length in bytes *)
  script_size : script -> Z
}.

Record wallet := { request_counts : gmap Z Z }.

Section Work.
Context `{BlockOps}.

(** [hash_best_chain] is globals::instance().hash_best_chain().  The
    parameters [reserve_key] and [is_proof_of_stake] of the source are the
    receiver of [keep_key] and unused.  Lines 677-687 print the block. *)
Definition check_work (blk : block) (w : wallet) (hash_best_chain : sha256)
    (m : mining_manager) : wallet * mining_manager :=
  let hash_block := get_hash blk in
  let hash_target := compact_target (bits (header blk)) in
  if (hash_target <? hash_block) && is_proof_of_work blk then (w, m)
  else if negb (hash_previous_block (header blk) =? hash_best_chain) then
    (w, m)
  else
    let m1 := emit_mining keep_key m in
    let w1 :=
      {| request_counts := <[get_hash blk := 0]> (request_counts w) |} in
    (w1, emit_mining (io_service_post (process_block blk)) m1).

Definition set_hash_merkle_root (r : sha256) (h : header_t) : header_t :=
  {| hash_previous_block := hash_previous_block h;
     hash_merkle_root := r;
     header_timestamp := header_timestamp h;
     bits := bits h;
     nonce := nonce h |}.

(** The variables increment_extra_nonce updates: the block, the caller's
    counter (passed by reference) and the function's static
    [hash_previous]. *)
Record nonce_vars := {
  nv_block : block;
  extra_nonce : Z;
  hash_previous : sha256
}.

(** [transactions()[0].transactions_in()[0].set_script_signature(s)]:
    [None] when either vector is empty. *)
Definition set_coinbase_script (s : script) (blk : block) : option block :=
  match transactions blk with
  | tx :: txs =>
      match transactions_in tx with
      | i :: ins =>
          Some {| header := header blk;
                  transactions :=
                    {| transactions_in := set_script_signature s i :: ins;
                       transaction_time := transaction_time tx |} :: txs |}
      | [] => None
      end
  | [] => None
  end.

Definition coinbase_script (blk : block) : option script :=
  match transactions blk with
  | tx :: _ =>
      match transactions_in tx with
      | i :: _ => Some (script_signature i)
      | [] => None
      end
  | [] => None
  end.

Definition increment_extra_nonce (index_previous : block_index)
    (v : nonce_vars) : outcome nonce_vars :=
  let blk := nv_block v in
  let changed := negb (hash_previous v =? hash_previous_block (header blk)) in
  let extra_nonce1 := if changed then 0 else extra_nonce v in
  let hash_previous1 :=
    if changed then hash_previous_block (header blk) else hash_previous v in
  let extra_nonce2 := wrap32 (extra_nonce1 + 1) in
  let height := wrap32 (height index_previous + 1) in
  let s := [push_integer height; push_big_number extra_nonce2]
             ++ coinbase_flags in
  match set_coinbase_script s blk with
  | None =>
      undefined {| nv_block := blk; extra_nonce := extra_nonce2;
                   hash_previous := hash_previous1 |}
  | Some blk1 =>
      if 100 <? script_size s then
        assert_failed {| nv_block := blk1; extra_nonce := extra_nonce2;
                         hash_previous := hash_previous1 |}
      else
        let blk2 :=
          {| header := set_hash_merkle_root (build_merkle_tree blk1)
                         (header blk1);
             transactions := transactions blk1 |} in
        returned {| nv_block := blk2; extra_nonce := extra_nonce2;
                    hash_previous := hash_previous1 |}
  end.

End Work.

End MiningManager.

(** * Properties *)

(** ** Machine arithmetic *)

Lemma wrap32_small z : 0 <= z < 2 ^ 32 -> wrap32 z = z.
Proof. intros Hz. unfold wrap32. now apply Z.mod_small. Qed.

Lemma wrap64_small z : 0 <= z < 2 ^ 64 -> wrap64 z = z.
Proof. intros Hz. unfold wrap64. now apply Z.mod_small. Qed.

Lemma wrap32_range z : 0 <= wrap32 z < 2 ^ 32.
Proof. unfold wrap32. apply Z.mod_pos_bound. lia. Qed.

(** ** The connection manager *)

Module ConnectionProofs.
Import Configuration TcpConnectionManager.

(** A concrete set of collaborators for the closed examples: nothing is
    banned, the group of an address is its upper bits, the address
    manager answers the [i]-th request with address [(i + 1) * 2^16]
    last tried at time 0, and the clock reads [now]. *)
Definition example_address (a : ip_address) (p : N) : network_address_t :=
  {| na_address := a; na_port := p; timestamp := 0; last_try := 0 |}.

Program Definition example_collaborators (now : Z) : Collaborators := {|
  is_address_banned := fun _ => false;
  from_endpoint := fun ep => example_address (address ep) (port ep);
  is_valid := fun _ => true;
  is_local := fun _ => false;
  group := fun a => [Z.of_N (na_address a) / 65536];
  ipv4_mapped_address := na_address;
  minimum_tcp_connections := 3;
  select := fun i _ => example_address (Z.to_N ((i + 1) * 65536)) 8333;
  get_adjusted := fun _ => now;
  time_wrap := wrap64;
  incoming_connection := fun t =>
    Some {| direction := direction_incoming; is_transport_valid := true;
            get_tcp_transport := Some t |};
  outgoing_connection := fun ep =>
    Some {| direction := direction_outgoing; is_transport_valid := true;
            get_tcp_transport :=
              Some {| transport_id := 0; remote_endpoint := None |} |};
  random_shuffle := fun l => l;
  resolve := fun _ => None
|}.
Next Obligation. lia. Qed.
Next Obligation. intros _ z Hz. apply wrap64_small. lia. Qed.
Next Obligation. intros _ l. reflexivity. Qed.

Definition example_configuration (maximum : Z) : configuration :=
  {| m_network_port_tcp := 8333;
     m_network_tcp_inbound_maximum := maximum;
     m_args := ∅;
     m_bootstrap_nodes := [] |}.

Definition example_manager (maximum : Z) : manager :=
  {| m_tcp_connections := ∅;
     stack_configuration := example_configuration maximum;
     effects := [] |}.

Definition example_transport (id : N) (a : ip_address) (p : N)
  : tcp_transport :=
  {| transport_id := id; remote_endpoint := Some (Endpoint a p) |}.

Section WithCollaborators.
Context `{Collaborators}.

Lemma is_duplicate_true t tbl ep :
  remote_endpoint t = Some ep ->
  is_duplicate t tbl = true <->
  exists k c, tbl !! k = Some c /\ address k = address ep.
Proof.
  intros Ht. unfold is_duplicate. rewrite Ht, existsb_exists. split.
  - intros [[k c] [Hin Heq]]. exists k, c. split.
    + apply elem_of_map_to_list. now apply list_elem_of_In.
    + now apply N.eqb_eq in Heq.
  - intros (k & c & Hk & Heq). exists (k, c). split.
    + apply list_elem_of_In. now apply elem_of_map_to_list.
    + now apply N.eqb_eq.
Qed.

Lemma is_duplicate_unreadable t tbl :
  remote_endpoint t = None -> is_duplicate t tbl = false.
Proof. intros Ht. unfold is_duplicate. now rewrite Ht. Qed.

Lemma handle_accept_readable t ep m :
  remote_endpoint t = Some ep ->
  handle_accept t m =
    if is_duplicate t (m_tcp_connections m)
       || is_address_banned (address ep)
       || (Z.of_nat (size (m_tcp_connections m)) >=?
           network_tcp_inbound_maximum (stack_configuration m))
    then returned (emit (transport_stop t) m)
    else returned
           (emit (connection_start t)
              (set_tcp_connections
                 (<[ep := incoming_connection t]> (m_tcp_connections m)) m)).
Proof.
  intros Ht. unfold handle_accept. rewrite Ht.
  destruct (is_duplicate t (m_tcp_connections m)); simpl; [reflexivity|].
  destruct (is_address_banned (address ep)); simpl; [reflexivity|].
  reflexivity.
Qed.

Lemma not_duplicate_fresh t ep tbl :
  remote_endpoint t = Some ep -> is_duplicate t tbl = false ->
  tbl !! ep = None.
Proof.
  intros Ht Hd. destruct (tbl !! ep) as [c|] eqn:Hk; [|reflexivity].
  assert (is_duplicate t tbl = true) as Hd'.
  { apply (is_duplicate_true t tbl ep Ht). now exists ep, c. }
  congruence.
Qed.

(** C3: a transport whose remote IP is that of a table entry (whatever
    the ports) is stopped, and the table is left as it was: nothing is
    inserted and no entry changes. *)
Theorem handle_accept_duplicate_ip (m : manager) (t : tcp_transport)
    (ep k : endpoint) (c : weak_ptr) :
  m_tcp_connections m !! k = Some c ->
  remote_endpoint t = Some ep ->
  address k = address ep ->
  handle_accept t m = returned (emit (transport_stop t) m) /\
  effects (emit (transport_stop t) m) = effects m ++ [transport_stop t] /\
  m_tcp_connections (emit (transport_stop t) m) = m_tcp_connections m.
Proof.
  intros Hk Ht Ha. split; [|split; reflexivity].
  rewrite (handle_accept_readable t ep m Ht).
  assert (is_duplicate t (m_tcp_connections m) = true) as ->.
  { apply (is_duplicate_true t _ ep Ht). now exists k, c. }
  reflexivity.
Qed.

(** C4: connect to a banned address, or to an endpoint already in the
    table, returns false and leaves the manager as it was: same table,
    and no call on any collaborator is added (on_connection_attempt in
    particular). *)
Theorem connect_rejected (m : manager) (ep : endpoint) :
  is_address_banned (address ep) = true \/
  is_Some (m_tcp_connections m !! ep) ->
  connect ep m = (false, m).
Proof.
  intros [Hb | [c Hc]]; unfold connect.
  - now rewrite Hb.
  - rewrite Hc. now destruct (is_address_banned (address ep)).
Qed.

Lemma connect_accepted (m : manager) (ep : endpoint) :
  is_address_banned (address ep) = false ->
  m_tcp_connections m !! ep = None ->
  connect ep m =
    (true,
     emit (connection_start_to ep)
       (set_tcp_connections
          (<[ep := outgoing_connection ep]> (m_tcp_connections m))
          (emit (on_connection_attempt (from_endpoint ep)) m))).
Proof. intros Hb Hk. unfold connect. rewrite Hb. simpl. now rewrite Hk. Qed.

(** X21, the capacity branch of lines 167-181: at capacity a transport
    whose remote endpoint can be read is stopped; at capacity no entry
    is inserted, whatever the transport; and handle_accept never takes
    the table past the inbound maximum: after the call the table is the
    one before, or its size is at most the maximum. *)
Theorem handle_accept_capacity (m : manager) (t : tcp_transport) :
  let maximum := network_tcp_inbound_maximum (stack_configuration m) in
  let after := m_tcp_connections (outcome_state (handle_accept t m)) in
  (maximum <= Z.of_nat (size (m_tcp_connections m)) ->
   is_Some (remote_endpoint t) ->
   handle_accept t m = returned (emit (transport_stop t) m)) /\
  (maximum <= Z.of_nat (size (m_tcp_connections m)) ->
   after = m_tcp_connections m) /\
  (after = m_tcp_connections m \/ Z.of_nat (size after) <= maximum).
Proof.
  intros maximum after. subst maximum after.
  destruct (remote_endpoint t) as [ep|] eqn:Ht.
  - rewrite (handle_accept_readable t ep m Ht).
    destruct (is_duplicate t (m_tcp_connections m)) eqn:Hd; simpl.
    { repeat split; auto. }
    destruct (is_address_banned (address ep)); simpl.
    { repeat split; auto. }
    destruct (Z.geb_spec (Z.of_nat (size (m_tcp_connections m)))
                (network_tcp_inbound_maximum (stack_configuration m)))
      as [Hge | Hlt].
    { repeat split; auto. }
    split; [lia|]. split; [lia|]. right. simpl.
    rewrite map_size_insert_None by (eapply not_duplicate_fresh; eauto).
    lia.
  - unfold handle_accept.
    rewrite (is_duplicate_unreadable t _ Ht), Ht. simpl.
    split; [intros _ [? ?]; discriminate|]. split; auto.
Qed.

(** *** tick: what a pass adds to the effect trace *)

Definition endpoint_of (a : network_address_t) : endpoint :=
  Endpoint (ipv4_mapped_address a) (na_port a).

(** The conditions under which line 398 is reached. *)
Definition call_allowed (a : network_address_t) (adjusted : Z)
    (peers : gmap endpoint weak_ptr) : Prop :=
  is_valid a = true /\ is_local a = false /\
  is_in_same_group a peers = false /\
  (time_wrap (adjusted - last_try a) <? 600) = false.

Definition plain (e : effect) : Prop :=
  match e with
  | tick_calls_connect _ _ _ | connection_start_to _ => False
  | _ => True
  end.

(** Every call of connect recorded in [es] was allowed, and every
    outgoing connection started in [es] is to the endpoint of such a
    call. *)
Definition topup_trace (es : list effect) : Prop :=
  (forall a t peers, In (tick_calls_connect a t peers) es ->
                     call_allowed a t peers) /\
  (forall ep, In (connection_start_to ep) es ->
              exists a t peers, In (tick_calls_connect a t peers) es /\
                                ep = endpoint_of a).

Lemma topup_trace_plain es : Forall plain es -> topup_trace es.
Proof.
  intros Hp. rewrite List.Forall_forall in Hp.
  split; intros; exfalso; eapply (Hp _ H0).
Qed.

Lemma topup_trace_app es1 es2 :
  topup_trace es1 -> topup_trace es2 -> topup_trace (es1 ++ es2).
Proof.
  intros [Ha1 Hb1] [Ha2 Hb2]. split.
  - intros a t peers Hin. apply in_app_or in Hin. destruct Hin; eauto.
  - intros ep Hin. apply in_app_or in Hin.
    destruct Hin as [Hin | Hin];
      [destruct (Hb1 _ Hin) as (a & t & peers & Hg & ->)
      |destruct (Hb2 _ Hin) as (a & t & peers & Hg & ->)];
      exists a, t, peers; (split; [apply in_or_app; auto | reflexivity]).
Qed.

(** The manager [m'] is [m] after more effects [es]. *)
Definition extends (m m' : manager) (es : list effect) : Prop :=
  effects m' = effects m ++ es /\
  stack_configuration m' = stack_configuration m.

Lemma extends_refl m : extends m m [].
Proof. split; [now rewrite app_nil_r | reflexivity]. Qed.

Lemma extends_trans m1 m2 m3 es1 es2 :
  extends m1 m2 es1 -> extends m2 m3 es2 -> extends m1 m3 (es1 ++ es2).
Proof.
  intros [He1 Hc1] [He2 Hc2]. split.
  - now rewrite He2, He1, app_assoc.
  - now rewrite Hc2.
Qed.

Lemma extends_emit e m : extends m (emit e m) [e].
Proof. split; reflexivity. Qed.

Lemma connect_cases ep m :
  snd (connect ep m) = m \/
  (m_tcp_connections m !! ep = None /\
   m_tcp_connections (snd (connect ep m))
     = <[ep := outgoing_connection ep]> (m_tcp_connections m) /\
   extends m (snd (connect ep m))
     [on_connection_attempt (from_endpoint ep); connection_start_to ep]).
Proof.
  unfold connect. destruct (is_address_banned (address ep)); [now left|].
  destruct (m_tcp_connections m !! ep) eqn:Hk; [now left|].
  right. split; [reflexivity|]. split; [reflexivity|]. split; simpl.
  - now rewrite <- app_assoc.
  - reflexivity.
Qed.

Lemma prune_entry_extends m it :
  exists es, extends m (prune_entry m it) es /\ Forall plain es.
Proof.
  unfold prune_entry. destruct (snd it) as [c|].
  - destruct (is_transport_valid c).
    + exists []. split; [apply extends_refl | constructor].
    + exists [connection_stop (fst it)]. split; [split; reflexivity|].
      repeat constructor.
  - exists []. split; [split; simpl; [now rewrite app_nil_r | reflexivity]
                      | constructor].
Qed.

Lemma prune_extends m :
  exists es, extends m (prune m) es /\ Forall plain es.
Proof.
  unfold prune. generalize (map_to_list (m_tcp_connections m)) as l.
  intros l. revert m. induction l as [|it l IH]; intros m; simpl.
  - exists []. split; [apply extends_refl | constructor].
  - destruct (prune_entry_extends m it) as (es1 & He1 & Hp1).
    destruct (IH (prune_entry m it)) as (es2 & He2 & Hp2).
    exists (es1 ++ es2). split; [eapply extends_trans; eauto|].
    apply Forall_app; auto.
Qed.

Definition topup_bias (m : manager) : Z :=
  10 + Z.min (Z.of_nat (size (m_tcp_connections m))) 8 * 10.

(** One turn of the top-up loop either only asks the address manager, or
    it also reaches the call of connect, under [call_allowed]. *)
Lemma topup_step_cases i m :
  let a := select i (topup_bias m) in
  let m1 := emit (address_manager_select (topup_bias m)) m in
  (topup_step i m = m1 /\
   (is_valid a = false \/ is_local a = true \/
    is_in_same_group a (m_tcp_connections m) = true \/
    (time_wrap (get_adjusted i - last_try a) <? 600) = true)) \/
  (call_allowed a (get_adjusted i) (m_tcp_connections m) /\
   topup_step i m =
     snd (connect (endpoint_of a)
            (emit (tick_calls_connect a (get_adjusted i)
                     (m_tcp_connections m)) m1))).
Proof.
  intros a m1. subst a m1. unfold topup_step, topup_bias. simpl.
  set (a := select i _).
  destruct (is_valid a) eqn:Hv; simpl; [|left; auto].
  destruct (is_local a) eqn:Hl; simpl; [left; auto|].
  destruct (is_in_same_group a (m_tcp_connections m)) eqn:Hg; simpl;
    [left; auto 6|].
  destruct (time_wrap (get_adjusted i - last_try a) <? 600) eqn:Ht;
    [left; auto 6|].
  right. split; [repeat split; assumption | reflexivity].
Qed.

Lemma topup_step_extends i m :
  exists es, extends m (topup_step i m) es /\ topup_trace es.
Proof.
  destruct (topup_step_cases i m) as [[-> _] | [Hok ->]].
  - eexists. split; [apply extends_emit|].
    apply topup_trace_plain. repeat constructor.
  - set (a := select i (topup_bias m)) in *.
    set (g := tick_calls_connect a (get_adjusted i) (m_tcp_connections m)).
    set (m2 := emit g (emit (address_manager_select (topup_bias m)) m)).
    assert (extends m m2 [address_manager_select (topup_bias m); g]) as H2.
    { split; simpl; [now rewrite <- app_assoc | reflexivity]. }
    destruct (connect_cases (endpoint_of a) m2) as [-> | (_ & _ & Hc)].
    + eexists. split; [exact H2|]. split.
      * intros a' t' p' [Hin | [Hin | []]]; [discriminate|].
        inversion Hin; subst. exact Hok.
      * intros ep [Hin | [Hin | []]]; discriminate.
    + eexists. split; [eapply extends_trans; [exact H2 | exact Hc]|].
      split.
      * intros a' t' p' Hin. simpl in Hin.
        destruct Hin as [Hin | [Hin | [Hin | [Hin | []]]]];
          try discriminate.
        inversion Hin; subst. exact Hok.
      * intros ep Hin. simpl in Hin.
        destruct Hin as [Hin | [Hin | [Hin | [Hin | []]]]];
          try discriminate.
        inversion Hin; subst. exists a, (get_adjusted i), (m_tcp_connections m).
        split; [simpl; auto | reflexivity].
Qed.

Lemma topup_step_size i m :
  (size (m_tcp_connections m) <= size (m_tcp_connections (topup_step i m))
   <= S (size (m_tcp_connections m)))%nat.
Proof.
  destruct (topup_step_cases i m) as [[-> _] | [_ ->]]; [simpl; lia|].
  match goal with |- context [connect ?e ?x] =>
    destruct (connect_cases e x) as [-> | (Hk & -> & _)] end.
  - simpl. lia.
  - rewrite map_size_insert_None by exact Hk. simpl. lia.
Qed.

Lemma topup_extends fuel : forall i m m',
  topup fuel i m = Some m' ->
  exists es, extends m m' es /\ topup_trace es.
Proof.
  induction fuel as [|fuel IH]; intros i m m'; simpl;
    destruct (i <? wrap64 _); try discriminate.
  - intros [= ->]. exists []. split; [apply extends_refl|].
    apply topup_trace_plain. constructor.
  - intros Hrun. destruct (topup_step_extends i m) as (es1 & He1 & Ht1).
    destruct (IH _ _ _ Hrun) as (es2 & He2 & Ht2).
    exists (es1 ++ es2). split; [eapply extends_trans; eauto|].
    now apply topup_trace_app.
  - intros [= ->]. exists []. split; [apply extends_refl|].
    apply topup_trace_plain. constructor.
Qed.

(** The loop ends by its own bound before the fuel does. *)
Lemma topup_total fuel : forall i m,
  0 <= i ->
  Z.of_nat (size (m_tcp_connections m)) <= minimum_tcp_connections ->
  minimum_tcp_connections - Z.of_nat (size (m_tcp_connections m)) - i
    <= Z.of_nat fuel ->
  is_Some (topup fuel i m).
Proof.
  pose proof minimum_tcp_connections_range as Hr.
  induction fuel as [|fuel IH]; intros i m Hi Hs Hf; simpl;
    rewrite wrap64_small by lia;
    destruct (Z.ltb_spec i (minimum_tcp_connections
                            - Z.of_nat (size (m_tcp_connections m))));
    eauto; try lia.
  pose proof (topup_step_size i m). apply IH; lia.
Qed.

Lemma tick_runs ec m :
  exists m' es, tick ec m = Some m' /\ extends m m' es /\ topup_trace es.
Proof.
  pose proof minimum_tcp_connections_range as Hr.
  unfold tick. destruct ec.
  { exists m, []. split; [reflexivity|]. split; [apply extends_refl|].
    apply topup_trace_plain. constructor. }
  destruct (prune_extends m) as (es1 & He1 & Hp1).
  rewrite wrap64_small by lia.
  destruct (Z.ltb_spec (Z.of_nat (size (m_tcp_connections (prune m))))
              (minimum_tcp_connections + 1)) as [Hlt | Hge].
  - destruct (topup_total (Z.to_nat minimum_tcp_connections) 0 (prune m))
      as [m2 Hm2]; try lia.
    rewrite Hm2. destruct (topup_extends _ _ _ _ Hm2) as (es2 & He2 & Ht2).
    eexists _, _. split; [reflexivity|]. split.
    + eapply extends_trans; [exact He1|].
      eapply extends_trans; [exact He2|].
      eapply extends_trans; apply extends_emit.
    + apply topup_trace_app; [now apply topup_trace_plain|].
      apply topup_trace_app; [exact Ht2|].
      apply topup_trace_plain. repeat constructor.
  - eexists _, _. split; [reflexivity|]. split.
    + eapply extends_trans; [exact He1|].
      eapply extends_trans; apply extends_emit.
    + apply topup_trace_app; [now apply topup_trace_plain|].
      apply topup_trace_plain. repeat constructor.
Qed.

Lemma is_in_same_group_true a tbl :
  is_in_same_group a tbl = true <->
  exists k c tr e,
    tbl !! k = Some (Some c) /\ get_tcp_transport c = Some tr /\
    remote_endpoint tr = Some e /\ group a = group (from_endpoint e).
Proof.
  unfold is_in_same_group. rewrite existsb_exists. split.
  - intros [[k w] [Hin Hp]]. unfold peer_in_group in Hp. simpl in Hp.
    destruct w as [c|]; [|discriminate].
    destruct (get_tcp_transport c) as [tr|] eqn:Htr; [|discriminate].
    destruct (remote_endpoint tr) as [e|] eqn:He; [|discriminate].
    apply bool_decide_eq_true in Hp. exists k, c, tr, e.
    split; [|auto]. apply elem_of_map_to_list. now apply list_elem_of_In.
  - intros (k & c & tr & e & Hk & Htr & He & Hg). exists (k, Some c). split.
    + apply list_elem_of_In. now apply elem_of_map_to_list.
    + unfold peer_in_group. simpl. rewrite Htr, He.
      now apply bool_decide_eq_true.
Qed.

(** C6: a candidate last tried less than 600 seconds before the adjusted
    time is skipped: the turn of the loop that considers it only asks the
    address manager.  Every pass of tick ends, each call of connect it
    makes is for a candidate not tried in the last 600 seconds, and each
    outgoing connection it starts is to the endpoint of such a
    candidate. *)
Theorem tick_rate_limit (ec : bool) (m : manager) :
  (forall i m0,
     0 <= get_adjusted i - last_try (select i (topup_bias m0)) < 600 ->
     topup_step i m0 = emit (address_manager_select (topup_bias m0)) m0) /\
  exists m' es,
    tick ec m = Some m' /\ effects m' = effects m ++ es /\
    (forall a t peers, In (tick_calls_connect a t peers) es ->
                       ~ (0 <= t - last_try a < 600)) /\
    (forall ep, In (connection_start_to ep) es ->
       exists a t peers,
         In (tick_calls_connect a t peers) es /\ ep = endpoint_of a /\
         ~ (0 <= t - last_try a < 600)).
Proof.
  assert (forall a t peers, call_allowed a t peers ->
                            ~ (0 <= t - last_try a < 600)) as Hrecent.
  { intros a t peers (_ & _ & _ & Ht) Hr.
    rewrite (time_wrap_small _ Hr) in Ht. apply Z.ltb_ge in Ht. lia. }
  split.
  - intros i m0 Hr.
    destruct (topup_step_cases i m0) as [[-> _] | [Hok _]]; [reflexivity|].
    destruct (Hrecent _ _ _ Hok Hr).
  - destruct (tick_runs ec m) as (m' & es & Hrun & [He _] & Hcalls & Hstarts).
    exists m', es. repeat split; try assumption.
    + intros a t peers Hin. eapply Hrecent, Hcalls, Hin.
    + intros ep Hin. destruct (Hstarts ep Hin) as (a & t & peers & Hg & ->).
      exists a, t, peers. repeat split; auto.
      eapply Hrecent, Hcalls, Hg.
Qed.

(** C7, as amended: a candidate that is invalid, local, or in the group
    of the remote endpoint of a peer in the table (connection and
    transport alive, endpoint readable) is skipped: the turn that
    considers it only asks the address manager.  Every call of connect
    tick makes is for a valid, non-local candidate in the group of no such
    peer of the table at that moment. *)
Theorem tick_one_peer_per_group (ec : bool) (m : manager) :
  (forall i m0,
     let a := select i (topup_bias m0) in
     (is_valid a = false \/ is_local a = true \/
      exists k c tr e,
        m_tcp_connections m0 !! k = Some (Some c) /\
        get_tcp_transport c = Some tr /\ remote_endpoint tr = Some e /\
        group a = group (from_endpoint e)) ->
     topup_step i m0 = emit (address_manager_select (topup_bias m0)) m0) /\
  exists m' es,
    tick ec m = Some m' /\ effects m' = effects m ++ es /\
    forall a t peers, In (tick_calls_connect a t peers) es ->
      is_valid a = true /\ is_local a = false /\
      forall k c tr e,
        peers !! k = Some (Some c) -> get_tcp_transport c = Some tr ->
        remote_endpoint tr = Some e ->
        group a <> group (from_endpoint e).
Proof.
  split.
  - intros i m0 a Hskip.
    destruct (topup_step_cases i m0) as [[-> _] | [(Hv & Hl & Hg & _) _]];
      [reflexivity|].
    fold a in Hv, Hl, Hg. destruct Hskip as [Hs | [Hs | Hs]]; try congruence.
    apply is_in_same_group_true in Hs. congruence.
  - destruct (tick_runs ec m) as (m' & es & Hrun & [He _] & Hcalls & _).
    exists m', es. repeat split; try assumption;
      destruct (Hcalls _ _ _ H0) as (Hv & Hl & Hg & _); auto.
    intros k c tr e Hk Htr Hre Heq.
    assert (is_in_same_group a peers = true) as Hg'
      by (apply is_in_same_group_true; eauto 8).
    congruence.
Qed.

(** *** Resolution of the bootstrap nodes *)

(** C10: do_resolve reads the front of its list whatever the list is, so
    it ends in the undefined branch exactly on the empty list; the
    handler calls it again on non-empty tails only, so the whole chain
    started on a non-empty list (of at most 100 queries) returns; and
    start, given no bootstrap node, makes the call on the empty list. *)
Theorem do_resolve_needs_front :
  (forall queries m, do_resolve queries m = undefined m <-> queries = []) /\
  (forall queries m,
     queries <> [] -> (length queries <= 100)%nat ->
     exists q, head queries = Some q /\
       do_resolve queries m
       = returned (emit (resolver_async_resolve (fst q) (snd q)) m)) /\
  (forall queries it m m',
     (length queries <= 100)%nat ->
     do_resolve_handler queries it m <> undefined m') /\
  (forall queries m,
     queries <> [] -> (length queries <= 100)%nat ->
     is_returned (completions queries m) = true) /\
  (forall m, bootstrap_nodes (stack_configuration m) = [] ->
             start m = undefined m).
Proof.
  assert (forall queries m, (length queries <= 100)%nat ->
            do_resolve queries m =
              match head queries with
              | None => undefined m
              | Some q =>
                  returned (emit (resolver_async_resolve (fst q) (snd q)) m)
              end) as Hdo.
  { intros queries m Hl. unfold do_resolve.
    destruct (Z.ltb_spec 100 (Z.of_nat (length queries))); [lia|reflexivity]. }
  assert (forall queries it m m', (length queries <= 100)%nat ->
            do_resolve_handler queries it m <> undefined m') as Hh.
  { intros queries it m m' Hl. unfold do_resolve_handler.
    destruct queries as [|q tmp]; simpl; [discriminate|].
    destruct tmp as [|q' tmp]; simpl; [discriminate|].
    rewrite Hdo by (simpl in *; lia). discriminate. }
  split; [|split; [|split; [exact Hh | split]]].
  - intros queries m. split.
    + unfold do_resolve.
      destruct (100 <? Z.of_nat (length queries)); [discriminate|].
      destruct queries; [reflexivity | discriminate].
    + intros ->. reflexivity.
  - intros queries m Hne Hl. rewrite Hdo by exact Hl.
    destruct queries as [|q tmp]; [congruence|]. now exists q.
  - intros queries. induction queries as [|q tmp IH]; intros m Hne Hl;
      [congruence|].
    cbn [completions]. unfold do_resolve_handler.
    cbn [length tail]. 
    destruct (Z.ltb_spec 0 (Z.of_nat (S (length tmp)))); [|lia].
    destruct tmp as [|q' tmp].
    + simpl. destruct (resolve q); reflexivity.
    + destruct (Z.ltb_spec 0 (Z.of_nat (length (q' :: tmp))));
        [|simpl in *; lia].
      rewrite Hdo by (simpl in *; lia). cbn [head].
      apply IH; [discriminate | simpl in *; lia].
  - intros m Hb. unfold start. rewrite Hb. simpl.
    rewrite (proj1 (Permutation_nil_r _) (random_shuffle_perm [])).
    reflexivity.
Qed.

End WithCollaborators.

(** *** Closed examples *)

Definition one_peer : manager :=
  outcome_state
    (@handle_accept (example_collaborators 1000)
       (example_transport 1 655361 1000) (example_manager 2)).

Definition two_peers : manager :=
  outcome_state
    (@handle_accept (example_collaborators 1000)
       (example_transport 2 655362 2000) one_peer).

Lemma handle_accept_duplicate_ip_witness :
  @handle_accept (example_collaborators 1000) (example_transport 7 655361 4444)
    one_peer
  = returned (emit (transport_stop (example_transport 7 655361 4444))
                one_peer).
Proof.
  eapply (@handle_accept_duplicate_ip (example_collaborators 1000) one_peer
            (example_transport 7 655361 4444) (Endpoint 655361 4444)
            (Endpoint 655361 1000)).
  - vm_compute. reflexivity.
  - reflexivity.
  - reflexivity.
Defined.

Lemma connect_rejected_witness :
  @connect (example_collaborators 1000) (Endpoint 655361 1000) one_peer
  = (false, one_peer).
Proof.
  apply (@connect_rejected (example_collaborators 1000) one_peer
           (Endpoint 655361 1000)).
  right. vm_compute. eauto.
Defined.

(** Inbound maximum 2, two connections accepted: a third attempt from a
    readable endpoint is stopped and the table keeps its two entries. *)
Lemma handle_accept_capacity_witness :
  size (m_tcp_connections two_peers) = 2%nat /\
  @handle_accept (example_collaborators 1000) (example_transport 3 655363 3000)
    two_peers
  = returned (emit (transport_stop (example_transport 3 655363 3000))
                two_peers) /\
  size (m_tcp_connections
          (emit (transport_stop (example_transport 3 655363 3000))
             two_peers)) = 2%nat.
Proof.
  split; [vm_compute; reflexivity|]. split; [|vm_compute; reflexivity].
  apply (@handle_accept_capacity (example_collaborators 1000) two_peers
           (example_transport 3 655363 3000)).
  - vm_compute. discriminate.
  - simpl. eauto.
Defined.

(** C5: at capacity the transport is to be stopped, and the code misses
    it when the remote endpoint of the transport cannot be read.  The scan
    of lines 122-137 catches the exception of [remote_endpoint()]; the
    same read at lines 153-154 is outside any try block.  With the table
    at its maximum of 2, the call leaves by that exception and
    [transport->stop()] is never reached. *)
Lemma handle_accept_capacity_unreadable :
  let t := {| transport_id := 3; remote_endpoint := None |} in
  network_tcp_inbound_maximum (stack_configuration two_peers)
    <= Z.of_nat (size (m_tcp_connections two_peers)) /\
  @handle_accept (example_collaborators 1000) t two_peers = thrown two_peers /\
  ~ In (transport_stop t)
       (effects (outcome_state
                   (@handle_accept (example_collaborators 1000) t two_peers))).
Proof.
  split; [vm_compute; discriminate|]. split; [vm_compute; reflexivity|].
  vm_compute. intros [Hc | [Hc | []]]; discriminate.
Qed.

(** With the clock at 500 the candidate, last tried at 0, is skipped. *)
Lemma tick_rate_limit_witness :
  @topup_step (example_collaborators 500) 0 two_peers
  = emit (address_manager_select 30) two_peers.
Proof.
  apply (proj1 (@tick_rate_limit (example_collaborators 500) false two_peers)
           0 two_peers).
  simpl. lia.
Defined.

Definition peer_of_group_one : manager :=
  outcome_state
    (@handle_accept (example_collaborators 1000)
       (example_transport 1 65537 1000) (example_manager 2)).

(** The first candidate, 65536, is in the group of the peer 65537. *)
Lemma tick_one_peer_per_group_witness :
  @topup_step (example_collaborators 1000) 0 peer_of_group_one
  = emit (address_manager_select 20) peer_of_group_one.
Proof.
  apply (proj1 (@tick_one_peer_per_group (example_collaborators 1000) false
                  peer_of_group_one) 0 peer_of_group_one).
  right. right.
  exists (Endpoint 65537 1000),
    {| direction := direction_incoming; is_transport_valid := true;
       get_tcp_transport := Some (example_transport 1 65537 1000) |},
    (example_transport 1 65537 1000), (Endpoint 65537 1000).
  repeat split; vm_compute; reflexivity.
Defined.

(** C7 as stated fails: two peers accepted from one group are both still
    in the table after a pass of tick whose candidates are valid, not
    local, not recently tried and of pairwise distinct groups. *)
Lemma tick_keeps_peers_of_one_group :
  let C := example_collaborators 1000 in
  let k1 := Endpoint 655361 1000 in
  let k2 := Endpoint 655362 2000 in
  (forall i j b b', 0 <= i -> 0 <= j -> i <> j ->
     @group C (@select C i b) <> @group C (@select C j b')) /\
  exists m',
    @tick C false two_peers = Some m' /\
    size (m_tcp_connections m') = 3%nat /\
    is_Some (m_tcp_connections m' !! k1) /\
    is_Some (m_tcp_connections m' !! k2) /\
    k1 <> k2 /\
    @group C (@from_endpoint C k1) = @group C (@from_endpoint C k2).
Proof.
  split.
  - intros i j b b' Hi Hj Hij. simpl.
    rewrite !Z2N.id by lia. rewrite !Z.div_mul by lia.
    intros [= Heq]. lia.
  - eexists. split; [vm_compute; reflexivity|].
    split; [vm_compute; reflexivity|].
    split; [vm_compute; eauto|]. split; [vm_compute; eauto|].
    split; [discriminate | reflexivity].
Qed.

Lemma do_resolve_needs_front_witness :
  @start (example_collaborators 1000) (example_manager 2)
  = undefined (example_manager 2).
Proof.
  apply (@do_resolve_needs_front (example_collaborators 1000)).
  reflexivity.
Defined.

End ConnectionProofs.

(** ** The mining manager *)

Module MiningProofs.
Import Configuration MiningManager.

(** *** The proof-of-work state machine *)

Definition pow_writes (es : list mining_effect) : list state_t :=
  flat_map (fun e => match e with set_state_pow s => [s] | _ => [] end) es.

(** The edges none|stopped -> starting -> started -> stopping -> stopped. *)
Definition allowed (a b : state_t) : bool :=
  match a, b with
  | state_none, state_starting
  | state_stopped, state_starting
  | state_starting, state_started
  | state_started, state_stopping
  | state_stopping, state_stopped => true
  | _, _ => false
  end.

(** [ws], the successive values written, walks allowed edges from [s]. *)
Fixpoint along (s : state_t) (ws : list state_t) : bool :=
  match ws with
  | [] => true
  | w :: ws' => allowed s w && along w ws'
  end.

Inductive call :=
| call_start_proof_of_work
| call_stop_proof_of_work
| call_start_proof_of_stake
| call_stop_proof_of_stake.

Definition run_call (m : mining_manager) (c : call) : mining_manager :=
  match c with
  | call_start_proof_of_work => start_proof_of_work m
  | call_stop_proof_of_work => stop_proof_of_work m
  | call_start_proof_of_stake => start_proof_of_stake m
  | call_stop_proof_of_stake => stop_proof_of_stake m
  end.

Definition run (cs : list call) (m : mining_manager) : mining_manager :=
  fold_left run_call cs m.

Definition pow_thread : thread :=
  {| is_proof_of_stake := false; joinable := true |}.

Definition pos_thread : thread :=
  {| is_proof_of_stake := true; joinable := true |}.

Lemma pow_writes_app es1 es2 :
  pow_writes (es1 ++ es2) = pow_writes es1 ++ pow_writes es2.
Proof. unfold pow_writes. apply flat_map_app. Qed.

Lemma last_cons (w : state_t) ws : forall s,
  List.last (w :: ws) s = List.last ws w.
Proof.
  revert w. induction ws as [|w' ws IH]; intros w s; [reflexivity|].
  change (List.last (w :: w' :: ws) s) with (List.last (w' :: ws) s).
  now rewrite !IH.
Qed.

Lemma last_app_from (ws1 ws2 : list state_t) : forall s,
  List.last (ws1 ++ ws2) s = List.last ws2 (List.last ws1 s).
Proof.
  induction ws1 as [|w ws1 IH]; intros s; [reflexivity|].
  rewrite <- app_comm_cons, !last_cons. apply IH.
Qed.

Lemma along_app s ws1 ws2 :
  along s (ws1 ++ ws2) = along s ws1 && along (List.last ws1 s) ws2.
Proof.
  revert s. induction ws1 as [|w ws1 IH]; intros s; [reflexivity|].
  rewrite last_cons. cbn [along app]. now rewrite IH, andb_assoc.
Qed.

(** Joining changes no field and writes no state. *)
Definition same_fields (m m' : mining_manager) : Prop :=
  m_state_pow m' = m_state_pow m /\ m_state_pos m' = m_state_pos m /\
  threads_ m' = threads_ m /\ thread_pos_ m' = thread_pos_ m /\
  m_hashes_per_second m' = m_hashes_per_second m /\
  m_hps_timer_start m' = m_hps_timer_start m /\
  get_configuration m' = get_configuration m.

Lemma join_each l : forall m,
  exists es,
    mining_effects (fold_left join_thread l m) = mining_effects m ++ es /\
    pow_writes es = [] /\ same_fields m (fold_left join_thread l m).
Proof.
  induction l as [|t l IH]; intros m; simpl.
  - exists []. rewrite app_nil_r. repeat split.
  - change (join_thread m t)
      with (if joinable t then emit_mining (thread_join t) m else m).
    destruct (joinable t); [|apply IH].
    destruct (IH (emit_mining (thread_join t) m)) as (es & He & Hw & Hrest).
    exists (thread_join t :: es). simpl in *.
    rewrite He, <- app_assoc. repeat split; try apply Hrest. exact Hw.
Qed.

Lemma start_proof_of_work_noop m :
  m_state_pow m = state_starting \/ m_state_pow m = state_started \/
  m_state_pow m = state_stopping ->
  start_proof_of_work m = m.
Proof.
  intros Hs. unfold start_proof_of_work.
  destruct Hs as [-> | [-> | ->]]; reflexivity.
Qed.

Lemma start_proof_of_work_starts m :
  m_state_pow m = state_none \/ m_state_pow m = state_stopped ->
  mining_effects (start_proof_of_work m)
    = mining_effects m
        ++ [set_state_pow state_starting; thread_spawn pow_thread;
            set_state_pow state_started] /\
  m_state_pow (start_proof_of_work m) = state_started /\
  threads_ (start_proof_of_work m) = threads_ m ++ [pow_thread] /\
  m_state_pos (start_proof_of_work m) = m_state_pos m /\
  thread_pos_ (start_proof_of_work m) = thread_pos_ m.
Proof.
  intros Hs. unfold start_proof_of_work.
  destruct Hs as [-> | ->]; simpl; rewrite <- !app_assoc; repeat split.
Qed.

Lemma stop_proof_of_work_noop m :
  m_state_pow m <> state_started -> stop_proof_of_work m = m.
Proof.
  intros Hs. unfold stop_proof_of_work.
  now rewrite bool_decide_eq_false_2.
Qed.

Lemma stop_proof_of_work_stops m :
  m_state_pow m = state_started ->
  exists joins,
    mining_effects (stop_proof_of_work m)
      = mining_effects m ++ [set_state_pow state_stopping] ++ joins
          ++ [io_service_post insert_mining_status;
              set_state_pow state_stopped] /\
    pow_writes joins = [] /\
    m_state_pow (stop_proof_of_work m) = state_stopped /\
    hashes_per_second (stop_proof_of_work m) = 0%Q /\
    threads_ (stop_proof_of_work m) = [].
Proof.
  intros Hs. unfold stop_proof_of_work.
  rewrite bool_decide_eq_true_2 by exact Hs.
  destruct (join_each (threads_ (write_state_pow state_stopping m))
              (write_state_pow state_stopping m)) as (es & He & Hw & _).
  exists es. unfold join_threads. cbn. cbn in He. rewrite He.
  rewrite <- !app_assoc. cbn. repeat split; auto.
Qed.

Lemma state_cases (s : state_t) :
  s = state_none \/ s = state_starting \/ s = state_started \/
  s = state_stopping \/ s = state_stopped.
Proof. destruct s; auto 6. Qed.

(** What one call writes to the proof-of-work state. *)
Lemma run_call_writes m c :
  exists es,
    mining_effects (run_call m c) = mining_effects m ++ es /\
    along (m_state_pow m) (pow_writes es) = true /\
    m_state_pow (run_call m c) = List.last (pow_writes es) (m_state_pow m).
Proof.
  destruct c; simpl.
  - destruct (state_cases (m_state_pow m)) as [Hs | [Hs | [Hs | [Hs | Hs]]]].
    2-4: rewrite start_proof_of_work_noop by auto; exists [];
         rewrite app_nil_r; repeat split.
    all: destruct (start_proof_of_work_starts m) as (He & Hst & _); auto;
         eexists; split; [exact He|]; rewrite Hst, Hs; split; reflexivity.
  - destruct (decide (m_state_pow m = state_started)) as [Hs | Hs].
    + destruct (stop_proof_of_work_stops m Hs) as (js & He & Hw & Hst & _).
      eexists. split; [exact He|].
      rewrite !pow_writes_app, Hw, Hst, Hs. split; reflexivity.
    + rewrite stop_proof_of_work_noop by exact Hs. exists [].
      rewrite app_nil_r. repeat split.
  - unfold start_proof_of_stake.
    destruct (_ || _).
    + eexists [_; _; _]. cbn. rewrite <- !app_assoc. repeat split.
    + exists []. rewrite app_nil_r. repeat split.
  - unfold stop_proof_of_stake. destruct (bool_decide _).
    + destruct (thread_pos_ m) eqn:Htp; cbn; rewrite Htp; cbn.
      * eexists [_; _; _]. cbn. rewrite <- !app_assoc. repeat split.
      * eexists [_; _]. cbn. rewrite <- !app_assoc. repeat split.
    + exists []. rewrite app_nil_r. repeat split.
Qed.

Lemma run_writes cs : forall m,
  exists es,
    mining_effects (run cs m) = mining_effects m ++ es /\
    along (m_state_pow m) (pow_writes es) = true /\
    m_state_pow (run cs m) = List.last (pow_writes es) (m_state_pow m).
Proof.
  induction cs as [|c cs IH]; intros m.
  - exists []. rewrite app_nil_r. repeat split.
  - destruct (run_call_writes m c) as (es1 & He1 & Ha1 & Hs1).
    destruct (IH (run_call m c)) as (es2 & He2 & Ha2 & Hs2).
    exists (es1 ++ es2). cbn [run fold_left]. fold (run cs (run_call m c)).
    rewrite He2, He1, <- app_assoc, pow_writes_app, along_app.
    rewrite Ha1, <- Hs1, Ha2, Hs2, Hs1. repeat split.
    now rewrite last_app_from.
Qed.

(** The two functions on any value of the state field, also the values
    starting and stopping that are only held inside a call, under
    [mutex_]: every write, over any sequence of start and stop calls,
    follows an edge of none|stopped -> starting -> started -> stopping ->
    stopped; start_proof_of_work writes only from none or stopped, and
    stop_proof_of_work only from started. *)
Lemma proof_of_work_calls (m : mining_manager) :
  (forall cs, exists es,
     mining_effects (run cs m) = mining_effects m ++ es /\
     along (m_state_pow m) (pow_writes es) = true /\
     m_state_pow (run cs m) = List.last (pow_writes es) (m_state_pow m)) /\
  (m_state_pow m = state_starting \/ m_state_pow m = state_started \/
   m_state_pow m = state_stopping ->
   start_proof_of_work m = m) /\
  (m_state_pow m = state_none \/ m_state_pow m = state_stopped ->
   mining_effects (start_proof_of_work m)
     = mining_effects m
         ++ [set_state_pow state_starting; thread_spawn pow_thread;
             set_state_pow state_started] /\
   m_state_pow (start_proof_of_work m) = state_started) /\
  (m_state_pow m <> state_started -> stop_proof_of_work m = m) /\
  (m_state_pow m = state_started ->
   exists joins,
     mining_effects (stop_proof_of_work m)
       = mining_effects m ++ [set_state_pow state_stopping] ++ joins
           ++ [io_service_post insert_mining_status;
               set_state_pow state_stopped] /\
     pow_writes joins = [] /\
     m_state_pow (stop_proof_of_work m) = state_stopped /\
     hashes_per_second (stop_proof_of_work m) = 0%Q /\
     threads_ (stop_proof_of_work m) = []).
Proof.
  split; [intros cs; apply run_writes|].
  split; [apply start_proof_of_work_noop|].
  split; [intros Hs; split; apply (start_proof_of_work_starts m Hs)|].
  split; [apply stop_proof_of_work_noop | apply stop_proof_of_work_stops].
Qed.

Definition mining_configuration (cpu : option string) : configuration :=
  {| m_network_port_tcp := 8333;
     m_network_tcp_inbound_maximum := 8;
     m_args := match cpu with
               | Some v => {["mine-cpu"%string := v]}
               | None => ∅
               end;
     m_bootstrap_nodes := [] |}.

Definition fresh_manager (cpu : option string) : mining_manager :=
  mining_manager_new (mining_configuration cpu).

(** *** start *)

Lemma start_proof_of_stake_effects m :
  exists es,
    mining_effects (start_proof_of_stake m) = mining_effects m ++ es /\
    (forall t, In (thread_spawn t) es -> t = pos_thread) /\
    threads_ (start_proof_of_stake m) = threads_ m /\
    m_state_pow (start_proof_of_stake m) = m_state_pow m /\
    get_configuration (start_proof_of_stake m) = get_configuration m.
Proof.
  unfold start_proof_of_stake. destruct (_ || _).
  - eexists [_; _; _]. cbn. rewrite <- !app_assoc. repeat split.
    intros t [Hin | [Hin | [Hin | []]]]; now inversion Hin.
  - exists []. rewrite app_nil_r. repeat split. intros t [].
Qed.

Lemma start_proof_of_stake_starts m :
  m_state_pos m = state_none \/ m_state_pos m = state_stopped ->
  m_state_pos (start_proof_of_stake m) = state_started /\
  thread_pos_ (start_proof_of_stake m) = Some pos_thread.
Proof.
  intros Hs. unfold start_proof_of_stake.
  destruct Hs as [-> | ->]; split; reflexivity.
Qed.

Lemma start_proof_of_work_keeps_pos m :
  m_state_pos (start_proof_of_work m) = m_state_pos m.
Proof.
  unfold start_proof_of_work. destruct (_ || _); reflexivity.
Qed.

(** C9: with "mine-cpu" set to a value above 0, start runs
    start_proof_of_work after start_proof_of_stake, and from none or
    stopped that spawns exactly one worker thread, whatever the value; with
    a value of 0 or below, or no "mine-cpu" argument, start runs
    start_proof_of_stake alone, which spawns no proof-of-work thread.
    start_proof_of_stake runs in every case, and from none or stopped it
    leaves proof-of-stake started. *)
Theorem start_mine_cpu (stoi : string -> option Z) (m : mining_manager) :
  let cpu := args (get_configuration m) !! "mine-cpu"%string in
  (forall it n,
     cpu = Some it -> stoi it = Some n -> 0 < n ->
     start stoi m = returned (start_proof_of_work (start_proof_of_stake m)) /\
     (m_state_pow m = state_none \/ m_state_pow m = state_stopped ->
      mining_effects (start_proof_of_work (start_proof_of_stake m))
        = mining_effects (start_proof_of_stake m)
            ++ [set_state_pow state_starting; thread_spawn pow_thread;
                set_state_pow state_started] /\
      threads_ (start_proof_of_work (start_proof_of_stake m))
        = threads_ m ++ [pow_thread] /\
      m_state_pow (start_proof_of_work (start_proof_of_stake m))
        = state_started)) /\
  (forall it n,
     cpu = Some it -> stoi it = Some n -> n <= 0 ->
     start stoi m = returned (start_proof_of_stake m)) /\
  (cpu = None -> start stoi m = returned (start_proof_of_stake m)) /\
  (exists es,
     mining_effects (start_proof_of_stake m) = mining_effects m ++ es /\
     (forall t, In (thread_spawn t) es -> t = pos_thread) /\
     threads_ (start_proof_of_stake m) = threads_ m /\
     m_state_pow (start_proof_of_stake m) = m_state_pow m) /\
  m_state_pos (outcome_state (start stoi m))
    = m_state_pos (start_proof_of_stake m) /\
  (m_state_pos m = state_none \/ m_state_pos m = state_stopped ->
   m_state_pos (start_proof_of_stake m) = state_started /\
   thread_pos_ (start_proof_of_stake m) = Some pos_thread).
Proof.
  intros cpu. subst cpu.
  destruct (start_proof_of_stake_effects m) as (es & He & Hsp & Hth & Hpw & Hc).
  unfold start. rewrite Hc.
  split; [|split; [|split; [|split; [|split]]]].
  - intros it n -> -> Hn.
    destruct (Z.ltb_spec 0 n); [|lia]. split; [reflexivity|].
    intros Hs. rewrite <- Hpw in Hs.
    destruct (start_proof_of_work_starts _ Hs) as (Hef & Hst & Ht & _).
    now rewrite Ht, Hth.
  - intros it n -> -> Hn. destruct (Z.ltb_spec 0 n); [lia|reflexivity].
  - intros ->. reflexivity.
  - exists es. auto.
  - destruct (args (get_configuration m) !! "mine-cpu"%string) as [it|];
      [|reflexivity].
    destruct (stoi it) as [n|]; [|reflexivity].
    destruct (0 <? n); [|reflexivity].
    apply start_proof_of_work_keeps_pos.
  - apply start_proof_of_stake_starts.
Qed.

(** A stand-in for [std::stoi] on the two values the examples use. *)
Definition example_stoi (s : string) : option Z :=
  if String.eqb s "4" then Some 4
  else if String.eqb s "0" then Some 0
  else None.

(** "mine-cpu" = 4 on a fresh manager: one proof-of-work thread. *)
Lemma start_mine_cpu_witness :
  start example_stoi (fresh_manager (Some "4"%string))
  = returned (start_proof_of_work
                (start_proof_of_stake (fresh_manager (Some "4"%string)))) /\
  threads_ (start_proof_of_work
              (start_proof_of_stake (fresh_manager (Some "4"%string))))
  = [pow_thread].
Proof.
  pose proof (start_mine_cpu example_stoi (fresh_manager (Some "4"%string)))
    as (Hon & _).
  destruct (Hon "4"%string 4) as (Hrun & Hone).
  - vm_compute. reflexivity.
  - reflexivity.
  - lia.
  - split; [exact Hrun|].
    destruct Hone as (_ & Hthreads & _); [left; reflexivity|].
    exact Hthreads.
Defined.

(** *** check_work and increment_extra_nonce *)

Section WithBlockOps.
Context `{BlockOps}.

(** C1: when the parent declared in the header is not the best-chain
    hash, check_work returns with the wallet and the manager as they
    were: no closure calling process_block is posted, keep_key is not
    called, and request_counts gets no entry. *)
Theorem check_work_stale (blk : block) (w : wallet) (hash_best_chain : sha256)
    (m : mining_manager) :
  hash_previous_block (header blk) <> hash_best_chain ->
  check_work blk w hash_best_chain m = (w, m).
Proof.
  intros Hstale. unfold check_work.
  destruct (_ && _); [reflexivity|].
  apply Z.eqb_neq in Hstale. now rewrite Hstale.
Qed.

Lemma check_work_fresh (blk : block) (w : wallet) (m : mining_manager) :
  (compact_target (bits (header blk)) <? get_hash blk)
    && is_proof_of_work blk = false ->
  check_work blk w (hash_previous_block (header blk)) m
  = ({| request_counts := <[get_hash blk := 0]> (request_counts w) |},
     emit_mining (io_service_post (process_block blk))
       (emit_mining keep_key m)).
Proof.
  intros Hpow. unfold check_work. rewrite Hpow, Z.eqb_refl. reflexivity.
Qed.

(** The script line 750-753 builds for the counter value [n]. *)
Definition coinbase_script_for (index_previous : block_index) (n : Z)
  : script :=
  [push_integer (wrap32 (height index_previous + 1)); push_big_number n]
    ++ coinbase_flags.

Lemma set_coinbase_script_read s blk blk' :
  set_coinbase_script s blk = Some blk' -> coinbase_script blk' = Some s.
Proof.
  unfold set_coinbase_script, coinbase_script.
  destruct (transactions blk) as [|tx txs]; [discriminate|].
  destruct (transactions_in tx) as [|i ins]; [discriminate|].
  intros [= <-]. reflexivity.
Qed.

Lemma set_coinbase_script_some s blk :
  is_Some (coinbase_script blk) -> is_Some (set_coinbase_script s blk).
Proof.
  unfold set_coinbase_script, coinbase_script.
  destruct (transactions blk) as [|tx txs]; [intros [? [=]]|].
  destruct (transactions_in tx) as [|i ins]; [intros [? [=]]|]. eauto.
Qed.

(** The call, with the counter and the static it settles on named. *)
Lemma increment_extra_nonce_unfold index_previous v :
  let parent := hash_previous_block (header (nv_block v)) in
  let n := wrap32 ((if hash_previous v =? parent then extra_nonce v else 0)
                   + 1) in
  let s := coinbase_script_for index_previous n in
  let vars blk :=
    {| nv_block := blk; extra_nonce := n; hash_previous := parent |} in
  increment_extra_nonce index_previous v =
    match set_coinbase_script s (nv_block v) with
    | None => undefined (vars (nv_block v))
    | Some blk1 =>
        if 100 <? script_size s then assert_failed (vars blk1)
        else returned
               (vars {| header := set_hash_merkle_root
                                    (build_merkle_tree blk1) (header blk1);
                        transactions := transactions blk1 |})
    end.
Proof.
  intros parent n s vars. subst parent n s vars.
  unfold increment_extra_nonce, coinbase_script_for.
  destruct (Z.eqb_spec (hash_previous v)
              (hash_previous_block (header (nv_block v)))) as [Heq | Hne];
    simpl; [rewrite Heq|]; reflexivity.
Qed.

(** The counter and the static after a call, however the call ends. *)
Lemma increment_extra_nonce_vars index_previous v :
  let v' := outcome_state (increment_extra_nonce index_previous v) in
  let parent := hash_previous_block (header (nv_block v)) in
  extra_nonce v' =
    wrap32 ((if hash_previous v =? parent then extra_nonce v else 0) + 1) /\
  hash_previous v' = parent.
Proof.
  intros v' parent. subst v' parent.
  rewrite increment_extra_nonce_unfold.
  destruct (set_coinbase_script _ _); simpl;
    try destruct (100 <? script_size _); simpl; auto.
Qed.

(** C2, as amended: while the parent hash of the candidate equals the
    last observed one, a call adds one to the counter modulo 2^32, so it
    strictly increases the counter by one whenever the counter is below
    2^32 - 1; on a call whose parent hash differs, the counter becomes 1
    and the parent is remembered.  A call that returns has put the new
    counter in the coinbase script, and a call returns whenever the block
    has a coinbase input and the script is at most 100 bytes long. *)
Theorem increment_extra_nonce_counter (index_previous : block_index)
    (v : nonce_vars) :
  let v' := outcome_state (increment_extra_nonce index_previous v) in
  let parent := hash_previous_block (header (nv_block v)) in
  (hash_previous v = parent ->
   extra_nonce v' = wrap32 (extra_nonce v + 1) /\
   hash_previous v' = hash_previous v /\
   (0 <= extra_nonce v < 2 ^ 32 - 1 ->
    extra_nonce v' = extra_nonce v + 1)) /\
  (hash_previous v <> parent ->
   extra_nonce v' = 1 /\ hash_previous v' = parent) /\
  (is_returned (increment_extra_nonce index_previous v) = true ->
   coinbase_script (nv_block v')
   = Some (coinbase_script_for index_previous (extra_nonce v'))) /\
  (is_Some (coinbase_script (nv_block v)) ->
   script_size (coinbase_script_for index_previous (extra_nonce v')) <= 100 ->
   is_returned (increment_extra_nonce index_previous v) = true).
Proof.
  intros v' parent.
  destruct (increment_extra_nonce_vars index_previous v) as [Hn Hp].
  fold v' parent in Hn, Hp.
  split; [|split; [|split]].
  - intros Heq. rewrite Hn, Hp, Heq, Z.eqb_refl.
    repeat split. intros Hr. apply wrap32_small. lia.
  - intros Hne. apply Z.eqb_neq in Hne. rewrite Hn, Hp, Hne.
    split; reflexivity.
  - subst v'. rewrite increment_extra_nonce_unfold in *.
    destruct (set_coinbase_script _ _) as [blk1|] eqn:Hset; [|discriminate].
    destruct (100 <? script_size _); [discriminate|]. simpl. intros _.
    apply (set_coinbase_script_read _ _ _ Hset).
  - intros Hcb. subst v'. rewrite Hn. clear Hn Hp.
    rewrite increment_extra_nonce_unfold.
    set (n := wrap32 (_ + 1)).
    destruct (set_coinbase_script_some (coinbase_script_for index_previous n)
                _ Hcb) as [blk1 Hset].
    rewrite Hset.
    destruct (Z.ltb_spec 100
                (script_size (coinbase_script_for index_previous n)));
      [lia | reflexivity].
Qed.

End WithBlockOps.

(** Block operations for the closed examples: the hash of a block is its
    nonce, the target is the [bits] field itself, and a script item
    counts for one byte. *)
Definition example_block_ops : BlockOps :=
  {| get_hash := fun b => nonce (header b);
     is_proof_of_work := fun _ => true;
     compact_target := fun b => b;
     build_merkle_tree := fun _ => 0;
     coinbase_flags := [];
     script_size := fun s => Z.of_nat (length s) |}.

(** A candidate on parent 7, with a coinbase input. *)
Definition example_block : block :=
  {| header := {| hash_previous_block := 7; hash_merkle_root := 0;
                  header_timestamp := 0; bits := 100; nonce := 5 |};
     transactions :=
       [{| transactions_in := [{| script_signature := [] |}];
           transaction_time := 0 |}] |}.

Definition example_wallet : wallet := {| request_counts := ∅ |}.

(** The best chain moved on to 8 while the block was being found. *)
Lemma check_work_stale_witness :
  @check_work example_block_ops example_block example_wallet 8
    (fresh_manager None)
  = (example_wallet, fresh_manager None).
Proof.
  apply (@check_work_stale example_block_ops). discriminate.
Defined.

Definition example_vars (n : Z) (previous : sha256) : nonce_vars :=
  {| nv_block := example_block; extra_nonce := n; hash_previous := previous |}.

(** Same parent: 41 becomes 42.  New parent: 41 becomes 1. *)
Lemma increment_extra_nonce_counter_witness :
  extra_nonce (outcome_state
                 (@increment_extra_nonce example_block_ops
                    {| height := 10 |} (example_vars 41 7))) = 42 /\
  extra_nonce (outcome_state
                 (@increment_extra_nonce example_block_ops
                    {| height := 10 |} (example_vars 41 6))) = 1.
Proof.
  split.
  - apply (@increment_extra_nonce_counter example_block_ops
             {| height := 10 |} (example_vars 41 7));
      [reflexivity | simpl; lia].
  - apply (@increment_extra_nonce_counter example_block_ops
             {| height := 10 |} (example_vars 41 6)).
    discriminate.
Defined.

(** C2 as stated fails at the last value of the 32-bit counter: with the
    parent unchanged, a call takes 4294967295 to 0, not one higher. *)
Lemma increment_extra_nonce_wraps :
  let v := example_vars 4294967295 7 in
  let r := @increment_extra_nonce example_block_ops {| height := 10 |} v in
  hash_previous v = hash_previous_block (header (nv_block v)) /\
  is_returned r = true /\
  extra_nonce (outcome_state r) = 0 /\
  ~ (extra_nonce v < extra_nonce (outcome_state r)).
Proof.
  split; [reflexivity|]. split; [reflexivity|]. split; [reflexivity|].
  vm_compute. intros Hlt. discriminate.
Qed.

End MiningProofs.

(** * The rest of the three files *)

(** ** tcp_connection_manager.cpp: stop, broadcast, tcp_connections *)

Module TcpConnectionManagerRest.
Import Configuration TcpConnectionManager.

(** [resolver_.cancel()] and [timer_.cancel()], lines 93-94. *)
Inductive cancellation := resolver_cancel | timer_cancel.

(** Lines 98-104: stop every connection whose weak pointer locks. *)
Definition stop_entry (m : manager) (i : endpoint * weak_ptr) : manager :=
  match snd i with
  | Some _ => emit (connection_stop (fst i)) m
  | None => m
  end.

(** Lines 91-107.  The two cancellations come first; they are returned
    beside the manager. *)
Definition stop (m : manager) : list cancellation * manager :=
  ([resolver_cancel; timer_cancel],
   set_tcp_connections ∅
     (fold_left stop_entry (map_to_list (m_tcp_connections m)) m)).

(** Lines 210-223: the calls [j->send(buf, len)], as the entries they go
    to with the bytes sent. *)
Definition broadcast (buf : list Z) (m : manager)
  : list (endpoint * list Z) :=
  flat_map
    (fun i : endpoint * weak_ptr =>
       match snd i with
       | Some _ => [(fst i, buf)]
       | None => []
       end)
    (map_to_list (m_tcp_connections m)).

Definition tcp_connections (m : manager) : gmap endpoint weak_ptr :=
  m_tcp_connections m.

Section Runs.
Context `{Collaborators}.

(** Inbound attempts one after the other; a call that throws leaves the
    manager as it was and the next attempt is handled. *)
Definition accept_all (ts : list tcp_transport) (m : manager) : manager :=
  fold_left (fun acc t => outcome_state (handle_accept t acc)) ts m.

(** do_resolve followed by the completion handlers of the whole chain. *)
Definition resolution (queries : list query) (m : manager)
  : outcome manager :=
  match do_resolve queries m with
  | returned m1 => completions queries m1
  | o => o
  end.

End Runs.

End TcpConnectionManagerRest.

Module ConnectionExtras.
Import Configuration TcpConnectionManager TcpConnectionManagerRest.
Import ConnectionProofs.

Section WithCollaborators.
Context `{Collaborators}.

(** *** The prune loop of tick *)

(** An entry survives the prune loop when its connection is alive and
    reports a valid transport. *)
Definition stays (w : weak_ptr) : bool :=
  match w with
  | Some c => is_transport_valid c
  | None => false
  end.

Definition alive_invalid (w : weak_ptr) : bool :=
  match w with
  | Some c => negb (is_transport_valid c)
  | None => false
  end.

Lemma prune_entry_table m it :
  m_tcp_connections (prune_entry m it) =
    if stays (snd it) then m_tcp_connections m
    else delete (fst it) (m_tcp_connections m).
Proof.
  unfold prune_entry, stays. destruct (snd it) as [c|]; [|reflexivity].
  destruct (is_transport_valid c); reflexivity.
Qed.

Lemma prune_entry_effects m it :
  effects (prune_entry m it) =
    effects m ++ (if alive_invalid (snd it)
                  then [connection_stop (fst it)] else []).
Proof.
  unfold prune_entry, alive_invalid.
  destruct (snd it) as [c|]; simpl; [|now rewrite app_nil_r].
  destruct (is_transport_valid c); simpl; [now rewrite app_nil_r|].
  reflexivity.
Qed.

Lemma prune_entry_configuration m it :
  stack_configuration (prune_entry m it) = stack_configuration m.
Proof.
  unfold prune_entry. destruct (snd it) as [c|]; [|reflexivity].
  destruct (is_transport_valid c); reflexivity.
Qed.

Definition pruned_by (k : endpoint) (it : endpoint * weak_ptr) : bool :=
  bool_decide (fst it = k) && negb (stays (snd it)).

Lemma prune_fold_lookup l : forall m k,
  m_tcp_connections (fold_left prune_entry l m) !! k =
    if existsb (pruned_by k) l then None else m_tcp_connections m !! k.
Proof.
  induction l as [|it l IH]; intros m k; [reflexivity|].
  cbn [fold_left existsb]. rewrite IH.
  destruct (existsb (pruned_by k) l); [now rewrite orb_true_r|].
  rewrite orb_false_r, prune_entry_table. unfold pruned_by.
  destruct (stays (snd it)); simpl; [now rewrite andb_false_r|].
  rewrite andb_true_r. case_bool_decide as Hk.
  - subst k. apply lookup_delete_eq.
  - now apply lookup_delete_ne.
Qed.

Lemma prune_fold_effects l : forall m,
  effects (fold_left prune_entry l m) =
    effects m ++ map (fun it => connection_stop (fst it))
                     (List.filter (fun it => alive_invalid (snd it)) l).
Proof.
  induction l as [|it l IH]; intros m; simpl; [now rewrite app_nil_r|].
  rewrite IH, prune_entry_effects.
  destruct (alive_invalid (snd it)); simpl.
  - now rewrite <- app_assoc.
  - now rewrite app_nil_r.
Qed.

Lemma prune_lookup m k :
  m_tcp_connections (prune m) !! k =
    match m_tcp_connections m !! k with
    | Some w => if stays w then Some w else None
    | None => None
    end.
Proof.
  unfold prune. rewrite prune_fold_lookup.
  destruct (m_tcp_connections m !! k) as [w|] eqn:Hk.
  - destruct (stays w) eqn:Hw.
    + destruct (existsb _ _) eqn:Hex; [|reflexivity].
      apply existsb_exists in Hex. destruct Hex as [[k' w'] [Hin Hp]].
      unfold pruned_by in Hp. simpl in Hp.
      apply andb_true_iff in Hp. destruct Hp as [Hk' Hw'].
      apply bool_decide_eq_true in Hk'. subst k'.
      apply list_elem_of_In, elem_of_map_to_list in Hin.
      rewrite Hk in Hin. injection Hin as <-. rewrite Hw in Hw'.
      discriminate.
    + assert (existsb (pruned_by k) (map_to_list (m_tcp_connections m))
              = true) as ->; [|reflexivity].
      apply existsb_exists. exists (k, w). split.
      * now apply list_elem_of_In, elem_of_map_to_list.
      * unfold pruned_by. simpl. rewrite Hw.
        now rewrite bool_decide_eq_true_2.
  - now destruct (existsb _ _).
Qed.

Lemma stops_nodup (P : endpoint * weak_ptr -> bool) l :
  NoDup (map fst l) ->
  NoDup (map (fun it => connection_stop (fst it)) (List.filter P l)).
Proof.
  induction l as [|it l IH]; simpl; intros Hnd; [constructor|].
  inversion Hnd as [|? ? Hnotin Hnd']; subst.
  destruct (P it); [|now apply IH].
  simpl. constructor; [|now apply IH].
  intros Hin. apply list_elem_of_In, in_map_iff in Hin.
  destruct Hin as (it' & Heq & Hin'). injection Heq as Heq.
  apply filter_In in Hin'. destruct Hin' as [Hin' _].
  apply Hnotin, list_elem_of_In. rewrite <- Heq. now apply in_map.
Qed.

(** X1: the prune loop keeps exactly the entries whose connection is
    alive with a valid transport, each with the handle it had; it calls
    stop() once on each entry that is alive but invalid, and on nothing
    else. *)
Theorem prune_keeps_valid_peers (m : manager) :
  (forall k w,
     m_tcp_connections (prune m) !! k = Some w <->
     m_tcp_connections m !! k = Some w /\
     exists c, w = Some c /\ is_transport_valid c = true) /\
  exists es,
    effects (prune m) = effects m ++ es /\ NoDup es /\
    forall e, In e es <->
      exists k c, e = connection_stop k /\
                  m_tcp_connections m !! k = Some (Some c) /\
                  is_transport_valid c = false.
Proof.
  split.
  - intros k w. rewrite prune_lookup.
    destruct (m_tcp_connections m !! k) as [w'|]; [|split; [easy|now intros []]].
    unfold stays. destruct w' as [c|].
    + destruct (is_transport_valid c) eqn:Hv; split.
      * intros [= <-]. eauto.
      * now intros [[= <-] _].
      * discriminate.
      * intros [[= <-] (c' & [= <-] & Hv')]. congruence.
    + split; [discriminate|]. intros [[= <-] (c' & Hc & _)]. discriminate.
  - eexists. split; [apply prune_fold_effects|]. split.
    + apply stops_nodup. apply NoDup_fst_map_to_list.
    + intros e. rewrite in_map_iff. split.
      * intros ([k w] & <- & Hin). apply filter_In in Hin.
        destruct Hin as [Hin Hai]. simpl in *.
        apply list_elem_of_In, elem_of_map_to_list in Hin.
        destruct w as [c|]; [|discriminate]. exists k, c.
        apply negb_true_iff in Hai. auto.
      * intros (k & c & -> & Hk & Hv). exists (k, Some c). split; [easy|].
        apply filter_In. split.
        -- now apply list_elem_of_In, elem_of_map_to_list.
        -- simpl. now rewrite Hv.
Qed.

Lemma prune_fold_id l : forall m,
  Forall (fun it => stays (snd it) = true) l ->
  fold_left prune_entry l m = m.
Proof.
  induction l as [|it l IH]; intros m Hall; [reflexivity|].
  inversion Hall as [|? ? Hit Hall']; subst. simpl.
  assert (prune_entry m it = m) as ->; [|now apply IH].
  unfold prune_entry. unfold stays in Hit.
  destruct (snd it) as [c|]; [|discriminate]. now rewrite Hit.
Qed.

(** X2: pruning twice is pruning once: a second pass over a pruned table
    removes nothing and stops nothing. *)
Theorem prune_idempotent (m : manager) : prune (prune m) = prune m.
Proof.
  unfold prune at 1. apply prune_fold_id.
  apply List.Forall_forall. intros [k w] Hin.
  apply list_elem_of_In, elem_of_map_to_list in Hin.
  rewrite prune_lookup in Hin. simpl.
  destruct (m_tcp_connections m !! k) as [w'|]; [|discriminate].
  destruct (stays w') eqn:Hw; [|discriminate]. now injection Hin as <-.
Qed.

(** *** The top-up loop of tick *)

Lemma topup_step_table i m :
  m_tcp_connections (topup_step i m) = m_tcp_connections m \/
  exists ep,
    m_tcp_connections m !! ep = None /\
    m_tcp_connections (topup_step i m)
      = <[ep := outgoing_connection ep]> (m_tcp_connections m).
Proof.
  destruct (topup_step_cases i m) as [[-> _] | [_ ->]]; [now left|].
  match goal with |- context [connect ?e ?x] =>
    destruct (connect_cases e x) as [-> | (Hk & -> & _)] end.
  - now left.
  - right. eexists. split; [exact Hk | reflexivity].
Qed.

Lemma topup_step_keeps i m k w :
  m_tcp_connections m !! k = Some w ->
  m_tcp_connections (topup_step i m) !! k = Some w.
Proof.
  intros Hk. destruct (topup_step_table i m) as [-> | (ep & Hep & ->)];
    [exact Hk|].
  rewrite lookup_insert_ne; [exact Hk|]. intros ->. congruence.
Qed.

(** [s0] is the size when the loop was entered: after [i] turns at most
    [i] entries were added, and never more than half the shortfall,
    rounded up. *)
Lemma topup_bound fuel : forall i m m' (s0 : Z),
  topup fuel i m = Some m' ->
  let s := Z.of_nat (size (m_tcp_connections m)) in
  let s' := Z.of_nat (size (m_tcp_connections m')) in
  s0 <= s <= minimum_tcp_connections ->
  s - s0 <= i ->
  2 * (s - s0) <= minimum_tcp_connections - s0 + 1 ->
  s <= s' <= minimum_tcp_connections /\
  2 * (s' - s0) <= minimum_tcp_connections - s0 + 1 /\
  forall k w, m_tcp_connections m !! k = Some w ->
              m_tcp_connections m' !! k = Some w.
Proof.
  pose proof minimum_tcp_connections_range as Hr.
  induction fuel as [|fuel IH]; intros i m m' s0; simpl;
    intros Hrun Hs Hi Hh; rewrite wrap64_small in Hrun by lia;
    destruct (Z.ltb_spec i (minimum_tcp_connections
                            - Z.of_nat (size (m_tcp_connections m))));
    try discriminate; try (injection Hrun as <-; split; [lia|auto]).
  pose proof (topup_step_size i m) as Hsz.
  destruct (IH _ _ _ s0 Hrun) as (Hb1 & Hb2 & Hb3); try lia.
  split; [lia|]. split; [lia|].
  intros k w Hk. apply Hb3. now apply topup_step_keeps.
Qed.

(** X3: a pass of tick leaves every entry that survived the prune loop
    in place, with its handle.  If more than minimum_tcp_connections
    survived, the table is exactly the pruned one.  Otherwise the pass
    does not take the table past minimum_tcp_connections, and because the
    loop bound is read again after every turn it adds at most half of the
    shortfall, rounded up. *)
Theorem tick_top_up_bound (m : manager) :
  exists m',
    tick false m = Some m' /\
    let before := Z.of_nat (size (m_tcp_connections (prune m))) in
    let after := Z.of_nat (size (m_tcp_connections m')) in
    (forall k w, m_tcp_connections (prune m) !! k = Some w ->
                 m_tcp_connections m' !! k = Some w) /\
    (minimum_tcp_connections < before ->
     m_tcp_connections m' = m_tcp_connections (prune m)) /\
    (before <= minimum_tcp_connections ->
     before <= after <= minimum_tcp_connections /\
     2 * (after - before) <= minimum_tcp_connections - before + 1).
Proof.
  pose proof minimum_tcp_connections_range as Hr.
  destruct (tick_runs false m) as (m' & es & Hrun & _).
  exists m'. split; [exact Hrun|]. revert Hrun. unfold tick.
  rewrite wrap64_small by lia.
  destruct (Z.ltb_spec (Z.of_nat (size (m_tcp_connections (prune m))))
              (minimum_tcp_connections + 1)) as [Hlt | Hge].
  - destruct (topup _ 0 (prune m)) as [m2|] eqn:Hm2; [|discriminate].
    intros [= <-]. simpl.
    destruct (topup_bound _ _ _ _
                (Z.of_nat (size (m_tcp_connections (prune m)))) Hm2)
      as (Hb1 & Hb2 & Hb3); try lia.
    split; [exact Hb3|]. split; [lia|]. intros _. split; lia.
  - intros [= <-]. simpl. split; [auto|]. split; [reflexivity|]. lia.
Qed.

(** Neither a timer nor a status call. *)
Definition quiet (e : effect) : Prop :=
  match e with
  | timer_expires_from_now _ | status_insert _ _ => False
  | _ => True
  end.

Lemma topup_step_quiet i m :
  exists es, effects (topup_step i m) = effects m ++ es /\ Forall quiet es.
Proof.
  destruct (topup_step_cases i m) as [[-> _] | [_ ->]].
  - eexists [_]. split; [reflexivity|]. repeat constructor.
  - match goal with |- context [connect ?e ?x] =>
      destruct (connect_cases e x) as [-> | (_ & _ & [-> _])] end.
    + eexists [_; _]. simpl. rewrite <- app_assoc. split; [reflexivity|].
      repeat constructor.
    + eexists [_; _; _; _]. simpl. rewrite <- !app_assoc.
      split; [reflexivity|]. repeat constructor.
Qed.

Lemma topup_quiet fuel : forall i m m',
  topup fuel i m = Some m' ->
  exists es, effects m' = effects m ++ es /\ Forall quiet es.
Proof.
  induction fuel as [|fuel IH]; intros i m m'; simpl;
    destruct (i <? wrap64 _); try discriminate;
    try (intros [= <-]; exists []; split;
         [now rewrite app_nil_r | constructor]).
  intros Hrun. destruct (topup_step_quiet i m) as (es1 & He1 & Hq1).
  destruct (IH _ _ _ Hrun) as (es2 & He2 & Hq2).
  exists (es1 ++ es2). rewrite He2, He1, <- app_assoc.
  split; [reflexivity | now apply Forall_app].
Qed.

Lemma prune_quiet m :
  exists es, effects (prune m) = effects m ++ es /\ Forall quiet es.
Proof.
  eexists. split; [apply prune_fold_effects|].
  apply List.Forall_forall. intros e Hin. apply in_map_iff in Hin.
  now destruct Hin as (it & <- & _).
Qed.

(** X4: a tick given an error code does nothing, so the heartbeat ends.
    Any other tick ends by arming the timer for 8 seconds, once, and then
    publishing one status: the size of the table it leaves, labelled
    "Connected" when that size is above 0 and "Connecting" otherwise. *)
Theorem tick_rearms_and_reports (m : manager) :
  tick true m = Some m /\
  exists m' es,
    tick false m = Some m' /\
    let n := Z.of_nat (size (m_tcp_connections m')) in
    effects m' =
      effects m ++ es
        ++ [timer_expires_from_now 8;
            status_insert (if 0 <? n then "Connected" else "Connecting") n] /\
    Forall quiet es.
Proof.
  split; [reflexivity|].
  destruct (tick_runs false m) as (m' & es0 & Hrun & _).
  exists m'. revert Hrun. unfold tick.
  destruct (prune_quiet m) as (es1 & He1 & Hq1).
  destruct (_ <? wrap64 _).
  - destruct (topup _ 0 (prune m)) as [m2|] eqn:Hm2; [|discriminate].
    destruct (topup_quiet _ _ _ _ Hm2) as (es2 & He2 & Hq2).
    intros [= <-]. exists (es1 ++ es2). split; [reflexivity|].
    simpl. rewrite He2, He1, <- !app_assoc.
    split; [reflexivity | now apply Forall_app].
  - intros [= <-]. exists es1. split; [reflexivity|].
    simpl. rewrite He1, <- !app_assoc. split; [reflexivity | assumption].
Qed.

Definition is_select (e : effect) : bool :=
  match e with address_manager_select _ => true | _ => false end.

(** The bias line 335-336 computes for a table of [n] entries. *)
Definition bias_at (n : Z) : Z := 10 + Z.min n 8 * 10.

(** A select call carries the bias of a table size between [lo] and
    [hi]. *)
Definition select_bias_between (lo hi : Z) (e : effect) : Prop :=
  match e with
  | address_manager_select bias =>
      exists n, lo <= n <= hi /\ bias = bias_at n
  | _ => True
  end.

Definition bias_in_range (e : effect) : Prop :=
  match e with
  | address_manager_select bias => 10 <= bias <= 90 /\ bias mod 10 = 0
  | _ => True
  end.

Lemma bias_at_range n :
  0 <= n -> 10 <= bias_at n <= 90 /\ bias_at n mod 10 = 0.
Proof.
  intros Hn. unfold bias_at. set (k := Z.min n 8).
  assert (0 <= k <= 8) by (subst k; lia). split; [lia|].
  replace (10 + k * 10) with ((1 + k) * 10) by lia. apply Z_mod_mult.
Qed.

Lemma select_bias_between_range lo hi es :
  0 <= lo -> Forall (select_bias_between lo hi) es ->
  Forall bias_in_range es.
Proof.
  intros Hlo Hall. eapply Forall_impl; [exact Hall|].
  intros [] He; simpl in *; auto.
  destruct He as (n & Hn & ->). apply bias_at_range. lia.
Qed.

Lemma select_bias_between_wider lo hi lo' hi' es :
  lo' <= lo -> hi <= hi' -> Forall (select_bias_between lo hi) es ->
  Forall (select_bias_between lo' hi') es.
Proof.
  intros Hlo Hhi Hall. eapply Forall_impl; [exact Hall|].
  intros [] He; simpl in *; auto.
  destruct He as (n & Hn & ->). exists n. split; [lia | reflexivity].
Qed.

Lemma topup_step_select i m :
  exists rest,
    effects (topup_step i m)
      = effects m
          ++ address_manager_select
               (bias_at (Z.of_nat (size (m_tcp_connections m)))) :: rest /\
    List.filter is_select rest = [] /\
    forall lo hi, Forall (select_bias_between lo hi) rest.
Proof.
  change (bias_at (Z.of_nat (size (m_tcp_connections m))))
    with (topup_bias m).
  destruct (topup_step_cases i m) as [[-> _] | [_ ->]].
  - exists []. repeat split. constructor.
  - match goal with |- context [connect ?e ?x] =>
      destruct (connect_cases e x) as [-> | (_ & _ & [-> _])] end.
    + eexists [_]. simpl. rewrite <- app_assoc. repeat split.
      repeat constructor.
    + eexists [_; _; _]. simpl. rewrite <- !app_assoc. repeat split.
      repeat constructor.
Qed.

Lemma topup_selects fuel : forall i m m' (s0 : Z),
  topup fuel i m = Some m' ->
  0 <= i ->
  s0 <= Z.of_nat (size (m_tcp_connections m)) <= minimum_tcp_connections ->
  Z.of_nat (size (m_tcp_connections m))
    <= Z.of_nat (size (m_tcp_connections m')) /\
  exists es,
    effects m' = effects m ++ es /\
    Forall (select_bias_between
              (Z.of_nat (size (m_tcp_connections m)))
              (Z.of_nat (size (m_tcp_connections m')))) es /\
    i + Z.of_nat (length (List.filter is_select es))
      <= Z.max i (minimum_tcp_connections - s0).
Proof.
  pose proof minimum_tcp_connections_range as Hr.
  induction fuel as [|fuel IH]; intros i m m' s0; simpl;
    intros Hrun Hi Hs; rewrite wrap64_small in Hrun by lia;
    destruct (Z.ltb_spec i (minimum_tcp_connections
                            - Z.of_nat (size (m_tcp_connections m))));
    try discriminate;
    try (injection Hrun as <-; split; [lia|]; exists [];
         rewrite app_nil_r; simpl;
         split; [reflexivity|]; split; [constructor | lia]).
  pose proof (topup_step_size i m) as Hsz.
  destruct (topup_step_select i m) as (rest & He1 & Hn1 & Hb1).
  destruct (IH _ _ _ s0 Hrun) as (Hmono & es2 & He2 & Hb2 & Hc2); try lia.
  split; [lia|].
  exists ((address_manager_select
             (bias_at (Z.of_nat (size (m_tcp_connections m)))) :: rest)
          ++ es2).
  rewrite He2, He1, <- app_assoc. split; [reflexivity|]. split.
  - apply Forall_app. split.
    + constructor; [|apply Hb1].
      exists (Z.of_nat (size (m_tcp_connections m))). split; [lia|reflexivity].
    + eapply select_bias_between_wider; [| |exact Hb2]; lia.
  - rewrite List.filter_app. cbn [List.filter is_select].
    rewrite Hn1. cbn [app length]. lia.
Qed.

(** X20: each turn of the top-up loop asks the address manager once,
    with the bias 10 + 10 * min(table size, 8) of the table as it is at
    that turn.  Over a pass of tick every request therefore carries the
    bias of a table size between the pruned size and the final size, a
    multiple of 10 between 10 and 90, and the pass makes at most
    minimum_tcp_connections minus the pruned table size requests (none
    when the pruned table is larger). *)
Theorem tick_select_bias (m : manager) :
  (forall i m0, exists rest,
     effects (topup_step i m0)
       = effects m0
           ++ address_manager_select
                (10 + Z.min (Z.of_nat (size (m_tcp_connections m0))) 8 * 10)
              :: rest /\
     List.filter is_select rest = []) /\
  exists m' es,
    tick false m = Some m' /\ effects m' = effects m ++ es /\
    Forall (select_bias_between
              (Z.of_nat (size (m_tcp_connections (prune m))))
              (Z.of_nat (size (m_tcp_connections m')))) es /\
    Forall bias_in_range es /\
    Z.of_nat (length (List.filter is_select es))
      <= Z.max 0 (minimum_tcp_connections
                  - Z.of_nat (size (m_tcp_connections (prune m)))).
Proof.
  split.
  { intros i m0. destruct (topup_step_select i m0) as (rest & He & Hn & _).
    exists rest. split; [exact He | exact Hn]. }
  pose proof minimum_tcp_connections_range as Hr.
  assert (forall m' es,
            Forall (select_bias_between
                      (Z.of_nat (size (m_tcp_connections (prune m))))
                      (Z.of_nat (size (m_tcp_connections m')))) es ->
            Forall bias_in_range es) as Hrange.
  { intros m' es. apply select_bias_between_range. lia. }
  destruct (tick_runs false m) as (m' & es0 & Hrun & _).
  exists m'. revert Hrun. unfold tick.
  pose proof (prune_fold_effects (map_to_list (m_tcp_connections m)) m)
    as He1. fold (prune m) in He1.
  set (stops := map _ _) in He1.
  assert ((forall lo hi, Forall (select_bias_between lo hi) stops) /\
          List.filter is_select stops = []) as [Hb1 Hn1].
  { subst stops. generalize (List.filter
                               (fun it : endpoint * weak_ptr =>
                                  alive_invalid (snd it))
                               (map_to_list (m_tcp_connections m))).
    intros l. induction l as [|it l [IH1 IH2]]; simpl; split; auto;
      intros lo hi; constructor; try exact I; apply IH1. }
  rewrite wrap64_small by lia.
  destruct (Z.ltb_spec (Z.of_nat (size (m_tcp_connections (prune m))))
              (minimum_tcp_connections + 1)) as [Hlt | Hge].
  - destruct (topup _ 0 (prune m)) as [m2|] eqn:Hm2; [|discriminate].
    destruct (topup_selects _ _ _ _
                (Z.of_nat (size (m_tcp_connections (prune m)))) Hm2)
      as (_ & es2 & He2 & Hb2 & Hc2); try lia.
    intros [= <-].
    exists (stops ++ es2 ++ [timer_expires_from_now 8;
                             status_insert
                               (if 0 <? Z.of_nat (size (m_tcp_connections m2))
                                then "Connected" else "Connecting")
                               (Z.of_nat (size (m_tcp_connections m2)))]).
    split; [reflexivity|]. simpl. rewrite He2, He1, <- !app_assoc.
    split; [reflexivity|].
    assert (Forall (select_bias_between
                      (Z.of_nat (size (m_tcp_connections (prune m))))
                      (Z.of_nat (size (m_tcp_connections m2))))
              (stops ++ es2 ++ [timer_expires_from_now 8;
                             status_insert
                               (if 0 <? Z.of_nat (size (m_tcp_connections m2))
                                then "Connected" else "Connecting")
                               (Z.of_nat (size (m_tcp_connections m2)))]))
      as Hall.
    { apply Forall_app. split; [apply Hb1|]. apply Forall_app.
      split; [exact Hb2 | repeat constructor]. }
    split; [exact Hall|]. split; [apply (Hrange m2), Hall|].
    rewrite !List.filter_app, Hn1. simpl. rewrite length_app. simpl. lia.
  - intros [= <-].
    exists (stops ++ [timer_expires_from_now 8;
                      status_insert
                        (if 0 <? Z.of_nat (size (m_tcp_connections (prune m)))
                         then "Connected" else "Connecting")
                        (Z.of_nat (size (m_tcp_connections (prune m))))]).
    split; [reflexivity|]. simpl. rewrite He1, <- !app_assoc.
    split; [reflexivity|].
    assert (Forall (select_bias_between
                      (Z.of_nat (size (m_tcp_connections (prune m))))
                      (Z.of_nat (size (m_tcp_connections (prune m)))))
              (stops ++ [timer_expires_from_now 8;
                      status_insert
                        (if 0 <? Z.of_nat (size (m_tcp_connections (prune m)))
                         then "Connected" else "Connecting")
                        (Z.of_nat (size (m_tcp_connections (prune m))))]))
      as Hall.
    { apply Forall_app. split; [apply Hb1 | repeat constructor]. }
    split; [exact Hall|]. split; [apply (Hrange (prune m)), Hall|].
    rewrite List.filter_app, Hn1. simpl. lia.
Qed.

(** *** connect *)

(** X5: connect returns true exactly when the address is not banned and
    the endpoint is not in the table.  It then tells the address manager,
    inserts the one entry, and starts the connection; every other entry
    is as before, and a second connect to the same endpoint returns false
    and changes nothing. *)
Theorem connect_once (ep : endpoint) (m : manager) :
  (fst (connect ep m) = true <->
   is_address_banned (address ep) = false /\
   m_tcp_connections m !! ep = None) /\
  (fst (connect ep m) = true ->
   let m1 := snd (connect ep m) in
   m_tcp_connections m1 !! ep = Some (outgoing_connection ep) /\
   (forall k, k <> ep ->
      m_tcp_connections m1 !! k = m_tcp_connections m !! k) /\
   size (m_tcp_connections m1) = S (size (m_tcp_connections m)) /\
   effects m1 = effects m ++ [on_connection_attempt (from_endpoint ep);
                              connection_start_to ep] /\
   connect ep m1 = (false, m1)).
Proof.
  destruct (is_address_banned (address ep)) eqn:Hb.
  { rewrite (connect_rejected m ep) by auto. simpl.
    split; [split; [discriminate | now intros []] | discriminate]. }
  destruct (m_tcp_connections m !! ep) as [w|] eqn:Hk.
  { rewrite (connect_rejected m ep) by (right; eauto). simpl.
    split; [split; [discriminate | now intros []] | discriminate]. }
  rewrite (connect_accepted m ep Hb Hk). simpl.
  split; [split; auto|]. intros _.
  split; [apply lookup_insert_eq|].
  split; [intros k Hne; now apply lookup_insert_ne|].
  split; [now apply map_size_insert_None|].
  split; [now rewrite <- app_assoc|].
  apply connect_rejected. right. simpl. rewrite lookup_insert_eq. eauto.
Qed.

(** *** handle_accept over a run of inbound attempts *)

Definition one_per_ip (tbl : gmap endpoint weak_ptr) : Prop :=
  forall k1 k2,
    is_Some (tbl !! k1) -> is_Some (tbl !! k2) ->
    address k1 = address k2 -> k1 = k2.

(** What a table filled by handle_accept alone satisfies. *)
Definition inbound_only (ts : list tcp_transport) (m : manager) : Prop :=
  one_per_ip (m_tcp_connections m) /\
  Z.of_nat (size (m_tcp_connections m))
    <= Z.max 0 (network_tcp_inbound_maximum (stack_configuration m)) /\
  forall k, is_Some (m_tcp_connections m !! k) ->
    is_address_banned (address k) = false /\
    exists t, In t ts /\ remote_endpoint t = Some k /\
              m_tcp_connections m !! k = Some (incoming_connection t).

Lemma inbound_only_more ts ts' m :
  (forall t, In t ts -> In t ts') -> inbound_only ts m -> inbound_only ts' m.
Proof.
  intros Hsub (H1 & H2 & H3). split; [exact H1|]. split; [exact H2|].
  intros k Hk. destruct (H3 k Hk) as (Hb & t & Hin & Ht).
  split; [exact Hb|]. exists t. auto.
Qed.

Lemma handle_accept_inbound_only ts t m :
  inbound_only ts m ->
  inbound_only (ts ++ [t]) (outcome_state (handle_accept t m)) /\
  stack_configuration (outcome_state (handle_accept t m))
    = stack_configuration m.
Proof.
  intros Hinv.
  assert (inbound_only (ts ++ [t]) m) as Hinv'.
  { eapply inbound_only_more; [|exact Hinv]. intros; apply in_or_app; auto. }
  destruct (remote_endpoint t) as [ep|] eqn:Ht.
  2:{ unfold handle_accept.
      rewrite (is_duplicate_unreadable t _ Ht), Ht. simpl. auto. }
  rewrite (handle_accept_readable t ep m Ht).
  destruct (is_duplicate t (m_tcp_connections m)) eqn:Hd; simpl; [auto|].
  destruct (is_address_banned (address ep)) eqn:Hb; simpl; [auto|].
  destruct (Z.geb_spec (Z.of_nat (size (m_tcp_connections m)))
              (network_tcp_inbound_maximum (stack_configuration m)))
    as [Hge | Hlt]; simpl; [auto|].
  split; [|reflexivity].
  destruct Hinv' as (H1 & H2 & H3).
  pose proof (not_duplicate_fresh t ep _ Ht Hd) as Hfresh.
  assert (forall k c, m_tcp_connections m !! k = Some c ->
                      address k <> address ep) as Hnew.
  { intros k c Hk Ha.
    assert (is_duplicate t (m_tcp_connections m) = true)
      by (apply (is_duplicate_true t _ ep Ht); eauto).
    congruence. }
  split; [|split]; simpl.
  - intros k1 k2 [w1 Hk1] [w2 Hk2] Ha.
    destruct (decide (k1 = ep)) as [-> | Hn1];
      destruct (decide (k2 = ep)) as [-> | Hn2]; try reflexivity.
    + rewrite lookup_insert_ne in Hk2 by auto.
      destruct (Hnew _ _ Hk2). auto.
    + rewrite lookup_insert_ne in Hk1 by auto.
      destruct (Hnew _ _ Hk1). auto.
    + rewrite lookup_insert_ne in Hk1, Hk2 by auto. apply H1; eauto.
  - rewrite map_size_insert_None by exact Hfresh. lia.
  - intros k [w Hk]. destruct (decide (k = ep)) as [-> | Hne].
    + split; [exact Hb|]. exists t. rewrite lookup_insert_eq.
      split; [apply in_or_app; right; now left | auto].
    + rewrite lookup_insert_ne in Hk by auto.
      destruct (H3 k) as (Hbk & t' & Hin & Ht' & Hv); [eauto|].
      split; [exact Hbk|]. exists t'. rewrite lookup_insert_ne by auto. auto.
Qed.

Lemma accept_all_inbound_only ts : forall ts0 m,
  inbound_only ts0 m ->
  inbound_only (ts0 ++ ts) (accept_all ts m) /\
  stack_configuration (accept_all ts m) = stack_configuration m.
Proof.
  induction ts as [|t ts IH]; intros ts0 m Hinv; simpl.
  - rewrite app_nil_r. auto.
  - destruct (handle_accept_inbound_only ts0 t m Hinv) as [Hinv1 Hc1].
    destruct (IH _ _ Hinv1) as [Hinv2 Hc2].
    rewrite <- app_assoc in Hinv2. simpl in Hinv2.
    split; [exact Hinv2 | congruence].
Qed.

(** X6: however many inbound attempts are handled one after the other on
    an empty table, the table holds at most one entry per remote IP and
    at most the inbound maximum of entries, and every entry is keyed by
    the remote endpoint of one of the transports, whose address was not
    banned when it was accepted. *)
Theorem inbound_table_invariant (ts : list tcp_transport) (m : manager) :
  m_tcp_connections m = ∅ ->
  let m' := accept_all ts m in
  one_per_ip (m_tcp_connections m') /\
  Z.of_nat (size (m_tcp_connections m'))
    <= Z.max 0 (network_tcp_inbound_maximum (stack_configuration m)) /\
  forall k, is_Some (m_tcp_connections m' !! k) ->
    is_address_banned (address k) = false /\
    exists t, In t ts /\ remote_endpoint t = Some k /\
              m_tcp_connections m' !! k = Some (incoming_connection t).
Proof.
  intros Hempty m'. subst m'.
  assert (inbound_only [] m) as Hinv.
  { unfold inbound_only, one_per_ip. rewrite Hempty. split; [|split].
    - intros k1 k2 [w Hw]. rewrite lookup_empty in Hw. discriminate.
    - rewrite map_size_empty. lia.
    - intros k [w Hw]. rewrite lookup_empty in Hw. discriminate. }
  destruct (accept_all_inbound_only ts [] m Hinv) as [(H1 & H2 & H3) Hc].
  rewrite Hc in H2. auto.
Qed.

(** *** stop and broadcast *)

Definition alive (w : weak_ptr) : bool :=
  match w with Some _ => true | None => false end.

Lemma stop_fold_effects l : forall m,
  effects (fold_left stop_entry l m) =
    effects m ++ map (fun it => connection_stop (fst it))
                     (List.filter (fun it => alive (snd it)) l).
Proof.
  induction l as [|[k w] l IH]; intros m; simpl; [now rewrite app_nil_r|].
  rewrite IH. unfold stop_entry. destruct w as [c|]; simpl.
  - now rewrite <- app_assoc.
  - reflexivity.
Qed.

(** X7: stop leaves the table empty and calls stop() once on each entry
    whose connection is still alive, and on nothing else; stopping again
    then calls nothing more, and a broadcast reaches nobody. *)
Theorem stop_stops_live_connections (m : manager) :
  let m' := snd (stop m) in
  m_tcp_connections m' = ∅ /\
  (exists es,
     effects m' = effects m ++ es /\ NoDup es /\
     forall e, In e es <->
       exists k c, e = connection_stop k /\
                   m_tcp_connections m !! k = Some (Some c)) /\
  snd (stop m') = m' /\
  forall buf, broadcast buf m' = [].
Proof.
  simpl. split; [reflexivity|]. split; [|split].
  - eexists. split; [apply stop_fold_effects|]. split.
    + apply stops_nodup, NoDup_fst_map_to_list.
    + intros e. rewrite in_map_iff. split.
      * intros ([k w] & <- & Hin). apply filter_In in Hin.
        destruct Hin as [Hin Hs]. simpl in *.
        apply list_elem_of_In, elem_of_map_to_list in Hin.
        destruct w as [c|]; [eauto | discriminate].
      * intros (k & c & -> & Hk). exists (k, Some c). split; [easy|].
        apply filter_In. split.
        -- now apply list_elem_of_In, elem_of_map_to_list.
        -- reflexivity.
  - unfold stop. simpl. now rewrite map_to_list_empty.
  - intros buf. unfold broadcast. simpl. now rewrite map_to_list_empty.
Qed.

Lemma broadcast_in buf m k b :
  In (k, b) (broadcast buf m) <->
  b = buf /\ exists c, m_tcp_connections m !! k = Some (Some c).
Proof.
  unfold broadcast. rewrite in_flat_map. split.
  - intros ([k' w] & Hin & Hs). simpl in Hs.
    apply list_elem_of_In, elem_of_map_to_list in Hin.
    destruct w as [c|]; [|destruct Hs].
    destruct Hs as [[= <- <-] | []]. eauto.
  - intros (-> & c & Hk). exists (k, Some c). split.
    + now apply list_elem_of_In, elem_of_map_to_list.
    + simpl. auto.
Qed.

(** X8: broadcast sends the buffer, unchanged, to the entries whose
    connection is alive and to no other; expired entries are passed over.
    Right after the prune loop of tick that is every entry of the
    table. *)
Theorem broadcast_reaches_live_peers (buf : list Z) (m : manager) :
  (forall k b,
     In (k, b) (broadcast buf m) <->
     b = buf /\ exists c, m_tcp_connections m !! k = Some (Some c)) /\
  (forall k,
     In (k, buf) (broadcast buf (prune m)) <->
     is_Some (m_tcp_connections (prune m) !! k)).
Proof.
  split; [intros k b; apply broadcast_in|].
  intros k. rewrite broadcast_in. split.
  - intros (_ & c & Hk). eauto.
  - intros [w Hk]. split; [reflexivity|].
    rewrite prune_lookup in Hk |- *.
    destruct (m_tcp_connections m !! k) as [w'|]; [|discriminate].
    destruct (stays w') eqn:Hw; [|discriminate].
    destruct w' as [c|]; [eauto | discriminate].
Qed.

(** *** Resolution of the bootstrap nodes *)

Definition added_on_success (q : query) : list effect :=
  match resolve q with
  | Some ep =>
      [address_manager_add (from_endpoint ep)
         (from_endpoint (Endpoint localhost 0))]
  | None => []
  end.

(** One resolver call per query, in order, each followed by the add of
    its answer when it has one. *)
Fixpoint resolution_trace (queries : list query) : list effect :=
  match queries with
  | [] => []
  | q :: tmp =>
      resolver_async_resolve (fst q) (snd q)
        :: added_on_success q ++ resolution_trace tmp
  end.

Lemma completions_trace tmp : forall q m,
  (length (q :: tmp) <= 100)%nat ->
  exists m',
    completions (q :: tmp) (emit (resolver_async_resolve (fst q) (snd q)) m)
      = returned m' /\
    effects m' = effects m ++ resolution_trace (q :: tmp) /\
    m_tcp_connections m' = m_tcp_connections m.
Proof.
  induction tmp as [|q2 t IH]; intros q m Hl.
  - cbn [completions resolution_trace].
    unfold do_resolve_handler, added_on_success. simpl.
    destruct (resolve q); eexists; (split; [reflexivity|]); simpl;
      rewrite <- ?app_assoc; auto.
  - cbn [completions]. unfold do_resolve_handler.
    cbn [length tail].
    destruct (Z.ltb_spec 0 (Z.of_nat (S (S (length t))))); [|lia].
    destruct (Z.ltb_spec 0 (Z.of_nat (S (length t)))); [|lia].
    unfold do_resolve. cbn [length head].
    destruct (Z.ltb_spec 100 (Z.of_nat (S (length t))));
      [simpl in Hl; lia|].
    match goal with |- context [emit (resolver_async_resolve (fst q2) _) ?x] =>
      destruct (IH q2 x) as (m' & Hrun & He & Ht) end;
      [simpl in *; lia|].
    exists m'. split; [exact Hrun|]. rewrite He, Ht.
    cbn [resolution_trace]. unfold added_on_success.
    destruct (resolve q); simpl; rewrite <- ?app_assoc; auto.
Qed.

(** X9: on a list of 1 to 100 queries the whole resolution returns; it
    hands every query to the resolver once, in the order of the list,
    going on after a failed resolution, and adds each resolved endpoint
    to the address manager with source 127.0.0.1:0 before the next query
    is issued.  The connection table is not touched. *)
Theorem resolution_visits_every_query (queries : list query) (m : manager) :
  queries <> [] -> (length queries <= 100)%nat ->
  exists m',
    resolution queries m = returned m' /\
    effects m' = effects m ++ resolution_trace queries /\
    m_tcp_connections m' = m_tcp_connections m.
Proof.
  intros Hne Hl. destruct queries as [|q tmp]; [congruence|].
  unfold resolution, do_resolve.
  destruct (Z.ltb_spec 100 (Z.of_nat (length (q :: tmp)))); [lia|].
  cbn [head]. now apply completions_trace.
Qed.

Lemma map_pair_id (l : list (string * Z)) :
  map (fun i : string * Z => (fst i, snd i)) l = l.
Proof. induction l as [|[a b] l IH]; simpl; [|rewrite IH]; reflexivity. Qed.

(** X10: with 1 to 100 bootstrap nodes start hands one of them to the
    resolver and then arms the timer for 1 second; with more than 100 it
    stops at the assertion of do_resolve, before any resolver or timer
    call. *)
Theorem start_by_bootstrap_count (m : manager) :
  let nodes := bootstrap_nodes (stack_configuration m) in
  ((1 <= length nodes <= 100)%nat ->
   exists q,
     In q nodes /\
     start m = returned
                 (emit (timer_expires_from_now 1)
                    (emit (resolver_async_resolve (fst q) (snd q)) m))) /\
  ((100 < length nodes)%nat -> start m = assert_failed m).
Proof.
  intros nodes. subst nodes. unfold start. rewrite map_pair_id.
  pose proof (random_shuffle_perm (bootstrap_nodes (stack_configuration m)))
    as Hperm.
  pose proof (Permutation_length Hperm
              : @length query
                  (random_shuffle (bootstrap_nodes (stack_configuration m)))
                = @length (string * Z)
                    (bootstrap_nodes (stack_configuration m))) as Hlen.
  unfold do_resolve. split; intros Hn.
  - destruct (Z.ltb_spec 100
                (Z.of_nat (length (random_shuffle
                                     (bootstrap_nodes
                                        (stack_configuration m))))));
      [lia|].
    destruct (random_shuffle (bootstrap_nodes (stack_configuration m)))
      as [|q tmp] eqn:Hq; [simpl in Hlen; lia|].
    exists q. split; [|reflexivity].
    eapply Permutation_in; [exact Hperm | now left].
  - destruct (Z.ltb_spec 100
                (Z.of_nat (length (random_shuffle
                                     (bootstrap_nodes
                                        (stack_configuration m))))));
      [reflexivity | lia].
Qed.

End WithCollaborators.

(** *** Closed examples *)

Lemma inbound_table_invariant_witness :
  Z.of_nat
    (size (m_tcp_connections
             (@accept_all (example_collaborators 1000)
                [example_transport 1 655361 1000;
                 example_transport 2 655361 2000;
                 example_transport 3 655363 3000;
                 example_transport 4 655364 4000]
                (example_manager 2))))
  <= Z.max 0 2.
Proof.
  apply (@inbound_table_invariant (example_collaborators 1000)
           [example_transport 1 655361 1000;
            example_transport 2 655361 2000;
            example_transport 3 655363 3000;
            example_transport 4 655364 4000]
           (example_manager 2)).
  reflexivity.
Defined.

Definition two_queries : list query :=
  [("seed-a"%string, 8333); ("seed-b"%string, 8334)].

Lemma resolution_visits_every_query_witness :
  exists m',
    @resolution (example_collaborators 1000) two_queries (example_manager 2)
      = returned m' /\
    effects m' =
      effects (example_manager 2)
        ++ @resolution_trace (example_collaborators 1000) two_queries /\
    m_tcp_connections m' = m_tcp_connections (example_manager 2).
Proof.
  apply (@resolution_visits_every_query (example_collaborators 1000)
           two_queries (example_manager 2)).
  - discriminate.
  - simpl. lia.
Defined.

Definition seeded_manager : manager :=
  {| m_tcp_connections := ∅;
     stack_configuration :=
       {| m_network_port_tcp := 8333;
          m_network_tcp_inbound_maximum := 2;
          m_args := ∅;
          m_bootstrap_nodes := two_queries |};
     effects := [] |}.

Lemma start_by_bootstrap_count_witness :
  exists q,
    In q two_queries /\
    @start (example_collaborators 1000) seeded_manager
    = returned
        (emit (timer_expires_from_now 1)
           (emit (resolver_async_resolve (fst q) (snd q)) seeded_manager)).
Proof.
  apply (@start_by_bootstrap_count (example_collaborators 1000)
           seeded_manager).
  simpl. lia.
Defined.

End ConnectionExtras.

(** ** configuration.cpp: the inbound maximum *)

Module ConfigurationExtras.
Import Configuration TcpConnectionManager ConnectionProofs.

(** X11: set_network_tcp_inbound_maximum stores the larger of the value
    and tcp_inbound_minimum and changes nothing else, so the getter never
    reads below the minimum afterwards; with a minimum of at least 1, an
    empty table then accepts an inbound transport whose remote endpoint
    can be read and is not banned. *)
Theorem set_network_tcp_inbound_maximum_clamps `{Collaborators}
    (tcp_inbound_minimum val : Z) (c : configuration) :
  let c' := set_network_tcp_inbound_maximum tcp_inbound_minimum val c in
  network_tcp_inbound_maximum c' = Z.max val tcp_inbound_minimum /\
  tcp_inbound_minimum <= network_tcp_inbound_maximum c' /\
  args c' = args c /\ network_port_tcp c' = network_port_tcp c /\
  bootstrap_nodes c' = bootstrap_nodes c /\
  (1 <= tcp_inbound_minimum ->
   forall t ep es,
     remote_endpoint t = Some ep ->
     is_address_banned (address ep) = false ->
     let m := {| m_tcp_connections := ∅; stack_configuration := c';
                 effects := es |} in
     exists m',
       handle_accept t m = returned m' /\
       m_tcp_connections m' !! ep = Some (incoming_connection t)).
Proof.
  intros c'. subst c'.
  assert (network_tcp_inbound_maximum
            (set_network_tcp_inbound_maximum tcp_inbound_minimum val c)
          = Z.max val tcp_inbound_minimum) as Hmax.
  { unfold set_network_tcp_inbound_maximum, network_tcp_inbound_maximum.
    simpl. destruct (Z.ltb_spec val tcp_inbound_minimum); lia. }
  split; [exact Hmax|]. split; [lia|].
  split; [reflexivity|]. split; [reflexivity|]. split; [reflexivity|].
  intros Hmin t ep es Ht Hb m.
  rewrite (handle_accept_readable t ep m Ht), Hb.
  assert (is_duplicate t (m_tcp_connections m) = false) as ->.
  { unfold is_duplicate. rewrite Ht. subst m. simpl.
    now rewrite map_to_list_empty. }
  subst m. cbn [m_tcp_connections stack_configuration].
  rewrite Hmax, map_size_empty.
  destruct (Z.geb_spec (Z.of_nat 0) (Z.max val tcp_inbound_minimum));
    [lia|].
  simpl. eexists. split; [reflexivity|]. simpl. apply lookup_insert_eq.
Qed.

Lemma set_network_tcp_inbound_maximum_clamps_witness :
  exists m',
    @handle_accept (example_collaborators 1000)
      (example_transport 1 655361 1000)
      {| m_tcp_connections := ∅;
         stack_configuration :=
           set_network_tcp_inbound_maximum 8 0 (example_configuration 2);
         effects := [] |}
    = returned m' /\
    m_tcp_connections m' !! Endpoint 655361 1000
    = Some (@incoming_connection (example_collaborators 1000)
              (example_transport 1 655361 1000)).
Proof.
  apply (@set_network_tcp_inbound_maximum_clamps (example_collaborators 1000)
           8 0 (example_configuration 2)).
  - lia.
  - reflexivity.
  - reflexivity.
Defined.

End ConfigurationExtras.

(** ** mining_manager.cpp: proof-of-stake, stop, and runs of calls *)

Module MiningExtras.
Import Configuration MiningManager MiningProofs.

Definition pos_writes (es : list mining_effect) : list state_t :=
  flat_map (fun e => match e with set_state_pos s => [s] | _ => [] end) es.

Lemma pos_writes_app es1 es2 :
  pos_writes (es1 ++ es2) = pos_writes es1 ++ pos_writes es2.
Proof. unfold pos_writes. apply flat_map_app. Qed.

Lemma start_proof_of_stake_noop m :
  m_state_pos m = state_starting \/ m_state_pos m = state_started \/
  m_state_pos m = state_stopping ->
  start_proof_of_stake m = m.
Proof.
  intros Hs. unfold start_proof_of_stake.
  destruct Hs as [-> | [-> | ->]]; reflexivity.
Qed.

Lemma start_proof_of_stake_trace m :
  m_state_pos m = state_none \/ m_state_pos m = state_stopped ->
  mining_effects (start_proof_of_stake m)
    = mining_effects m
        ++ [set_state_pos state_starting; thread_spawn pos_thread;
            set_state_pos state_started] /\
  m_state_pos (start_proof_of_stake m) = state_started /\
  thread_pos_ (start_proof_of_stake m) = Some pos_thread.
Proof.
  intros Hs. unfold start_proof_of_stake.
  destruct Hs as [-> | ->]; simpl; rewrite <- !app_assoc; repeat split.
Qed.

Lemma stop_proof_of_stake_noop m :
  m_state_pos m <> state_started -> stop_proof_of_stake m = m.
Proof.
  intros Hs. unfold stop_proof_of_stake. now rewrite bool_decide_eq_false_2.
Qed.

Definition join_of (t : option thread) : list mining_effect :=
  match t with Some t => [thread_join t] | None => [] end.

Lemma stop_proof_of_stake_trace m :
  m_state_pos m = state_started ->
  mining_effects (stop_proof_of_stake m)
    = mining_effects m ++ [set_state_pos state_stopping]
        ++ join_of (thread_pos_ m) ++ [set_state_pos state_stopped] /\
  m_state_pos (stop_proof_of_stake m) = state_stopped /\
  thread_pos_ (stop_proof_of_stake m) = thread_pos_ m /\
  hashes_per_second (stop_proof_of_stake m) = hashes_per_second m.
Proof.
  intros Hs. unfold stop_proof_of_stake.
  rewrite bool_decide_eq_true_2 by exact Hs. cbn.
  destruct (thread_pos_ m) eqn:Ht; cbn; rewrite <- !app_assoc;
    repeat split; exact Ht.
Qed.

(** Joining: one join per joinable handle, in order; no field changes. *)
Lemma join_each_exact l : forall m,
  mining_effects (fold_left join_thread l m)
    = mining_effects m ++ map thread_join (List.filter joinable l) /\
  same_fields m (fold_left join_thread l m).
Proof.
  induction l as [|t l IH]; intros m; simpl.
  - rewrite app_nil_r. repeat split.
  - change (join_thread m t)
      with (if joinable t then emit_mining (thread_join t) m else m).
    destruct (joinable t); [|apply IH].
    destruct (IH (emit_mining (thread_join t) m)) as [He Hsame].
    rewrite He. simpl. rewrite <- app_assoc. split; [reflexivity|].
    exact Hsame.
Qed.

Lemma stop_proof_of_work_trace m :
  m_state_pow m = state_started ->
  mining_effects (stop_proof_of_work m)
    = mining_effects m ++ [set_state_pow state_stopping]
        ++ map thread_join (List.filter joinable (threads_ m))
        ++ [io_service_post insert_mining_status;
            set_state_pow state_stopped] /\
  m_state_pos (stop_proof_of_work m) = m_state_pos m /\
  thread_pos_ (stop_proof_of_work m) = thread_pos_ m.
Proof.
  intros Hs. unfold stop_proof_of_work.
  rewrite bool_decide_eq_true_2 by exact Hs.
  destruct (join_each_exact (threads_ (write_state_pow state_stopping m))
              (write_state_pow state_stopping m))
    as (He & _ & Hpos & _ & Htp & _).
  unfold join_threads. cbn. cbn in He, Hpos, Htp.
  rewrite He, <- !app_assoc. cbn. auto.
Qed.

Lemma pos_writes_joins l : pos_writes (map thread_join l) = [].
Proof. induction l; simpl; auto. Qed.

Lemma pos_call_writes m c :
  exists es,
    mining_effects (run_call m c) = mining_effects m ++ es /\
    along (m_state_pos m) (pos_writes es) = true /\
    m_state_pos (run_call m c) = List.last (pos_writes es) (m_state_pos m).
Proof.
  destruct c; simpl.
  - unfold start_proof_of_work. destruct (_ || _).
    + eexists [_; _; _]. cbn. rewrite <- !app_assoc. repeat split.
    + exists []. rewrite app_nil_r. repeat split.
  - destruct (decide (m_state_pow m = state_started)) as [Hs | Hs].
    + destruct (stop_proof_of_work_trace m Hs) as (He & Hpos & _).
      eexists. split; [exact He|].
      rewrite !pos_writes_app, pos_writes_joins, Hpos. split; reflexivity.
    + rewrite stop_proof_of_work_noop by exact Hs. exists [].
      rewrite app_nil_r. repeat split.
  - destruct (state_cases (m_state_pos m)) as [Hs | [Hs | [Hs | [Hs | Hs]]]].
    2-4: rewrite start_proof_of_stake_noop by auto; exists [];
         rewrite app_nil_r; repeat split.
    all: destruct (start_proof_of_stake_trace m) as (He & Hst & _); auto;
         eexists; split; [exact He|]; rewrite Hst, Hs; split; reflexivity.
  - destruct (decide (m_state_pos m = state_started)) as [Hs | Hs].
    + destruct (stop_proof_of_stake_trace m Hs) as (He & Hst & _).
      eexists. split; [exact He|].
      rewrite !pos_writes_app, Hst, Hs.
      destruct (thread_pos_ m); split; reflexivity.
    + rewrite stop_proof_of_stake_noop by exact Hs. exists [].
      rewrite app_nil_r. repeat split.
Qed.

Lemma pos_run_writes cs : forall m,
  exists es,
    mining_effects (run cs m) = mining_effects m ++ es /\
    along (m_state_pos m) (pos_writes es) = true /\
    m_state_pos (run cs m) = List.last (pos_writes es) (m_state_pos m).
Proof.
  induction cs as [|c cs IH]; intros m.
  - exists []. rewrite app_nil_r. repeat split.
  - destruct (pos_call_writes m c) as (es1 & He1 & Ha1 & Hs1).
    destruct (IH (run_call m c)) as (es2 & He2 & Ha2 & Hs2).
    exists (es1 ++ es2). cbn [run fold_left]. fold (run cs (run_call m c)).
    rewrite He2, He1, <- app_assoc, pos_writes_app, along_app.
    rewrite Ha1, <- Hs1, Ha2, Hs2, Hs1. repeat split.
    now rewrite last_app_from.
Qed.

(** X12: the proof-of-stake state follows the same edges as the
    proof-of-work state over any sequence of start and stop calls.
    start_proof_of_stake does nothing in starting, started or stopping,
    and from none or stopped writes starting, spawns the one stake
    thread, and writes started.  stop_proof_of_stake does nothing unless
    the state is started, and from started writes stopping, joins the
    stake thread, and writes stopped; unlike stop_proof_of_work it leaves
    hashes_per_second() as it was. *)
Theorem proof_of_stake_state_machine (m : mining_manager) :
  (forall cs, exists es,
     mining_effects (run cs m) = mining_effects m ++ es /\
     along (m_state_pos m) (pos_writes es) = true /\
     m_state_pos (run cs m) = List.last (pos_writes es) (m_state_pos m)) /\
  (m_state_pos m = state_starting \/ m_state_pos m = state_started \/
   m_state_pos m = state_stopping ->
   start_proof_of_stake m = m) /\
  (m_state_pos m = state_none \/ m_state_pos m = state_stopped ->
   mining_effects (start_proof_of_stake m)
     = mining_effects m
         ++ [set_state_pos state_starting; thread_spawn pos_thread;
             set_state_pos state_started] /\
   m_state_pos (start_proof_of_stake m) = state_started /\
   thread_pos_ (start_proof_of_stake m) = Some pos_thread) /\
  (m_state_pos m <> state_started -> stop_proof_of_stake m = m) /\
  (m_state_pos m = state_started ->
   mining_effects (stop_proof_of_stake m)
     = mining_effects m ++ [set_state_pos state_stopping]
         ++ join_of (thread_pos_ m) ++ [set_state_pos state_stopped] /\
   m_state_pos (stop_proof_of_stake m) = state_stopped /\
   thread_pos_ (stop_proof_of_stake m) = thread_pos_ m /\
   hashes_per_second (stop_proof_of_stake m) = hashes_per_second m).
Proof.
  split; [intros cs; apply pos_run_writes|].
  split; [apply start_proof_of_stake_noop|].
  split; [apply start_proof_of_stake_trace|].
  split; [apply stop_proof_of_stake_noop | apply stop_proof_of_stake_trace].
Qed.

(** *** Threads over runs of calls *)

Definition count (p : mining_effect -> bool) (es : list mining_effect)
  : nat := length (List.filter p es).

Definition is_spawn (pos : bool) (e : mining_effect) : bool :=
  match e with
  | thread_spawn t => Bool.eqb (is_proof_of_stake t) pos
  | _ => false
  end.

Definition is_join (pos : bool) (e : mining_effect) : bool :=
  match e with
  | thread_join t => Bool.eqb (is_proof_of_stake t) pos
  | _ => false
  end.

(** Between calls: the proof-of-work handles are the one worker exactly
    while the state is started; the stake handle is set from the first
    start on; and every thread spawned so far has been joined, except the
    ones now running. *)
Definition settled (m : mining_manager) : Prop :=
  (m_state_pow m = state_started /\ threads_ m = [pow_thread] \/
   (m_state_pow m = state_none \/ m_state_pow m = state_stopped) /\
   threads_ m = []) /\
  (m_state_pos m = state_started /\ thread_pos_ m = Some pos_thread \/
   m_state_pos m = state_stopped /\ thread_pos_ m = Some pos_thread \/
   m_state_pos m = state_none /\ thread_pos_ m = None) /\
  count (is_spawn false) (mining_effects m)
    = (count (is_join false) (mining_effects m) + length (threads_ m))%nat /\
  count (is_spawn true) (mining_effects m)
    = (count (is_join true) (mining_effects m)
       + if bool_decide (m_state_pos m = state_started) then 1 else 0)%nat.

Lemma run_call_settled m c : settled m -> settled (run_call m c).
Proof.
  intros (Hpow & Hpos & Hb1 & Hb2).
  destruct m as [pw ps hps ts0 ths tp cfg es]. cbn in *.
  unfold settled, count in *.
  destruct Hpow as [[-> ->] | [[-> | ->] ->]];
    destruct Hpos as [[-> ->] | [[-> ->] | [-> ->]]];
    destruct c;
    unfold run_call, start_proof_of_work, stop_proof_of_work,
      start_proof_of_stake, stop_proof_of_stake, join_threads;
    simpl in *;
    rewrite ?List.filter_app, ?length_app; simpl;
    (split; [auto 6|]); (split; [auto 6|]); split; lia.
Qed.

Lemma run_settled cs : forall m, settled m -> settled (run cs m).
Proof.
  induction cs as [|c cs IH]; intros m Hm; [exact Hm|].
  cbn [run fold_left]. apply IH. now apply run_call_settled.
Qed.

(** X13: after any sequence of start and stop calls on a new manager,
    threads_ holds the single proof-of-work worker exactly when the
    proof-of-work state is started and is empty otherwise; the states
    seen between calls are none, started and stopped only; and the
    threads spawned are the threads joined plus the ones still running,
    so no start spawns a second worker beside a running one. *)
Theorem threads_follow_state (c : configuration) (cs : list call) :
  settled (run cs (mining_manager_new c)).
Proof.
  apply run_settled. unfold settled, count. cbn. auto 8.
Qed.

(** *** start followed by stop *)



(** *** check_work and increment_extra_nonce *)

Section WithBlockOps.
Context `{BlockOps}.

(** X15: check_work submits the block exactly when its declared parent
    is the best-chain hash and it is not a proof-of-work block whose hash
    is above the target; a proof-of-stake block is not held to the
    target.  Submitting is keep_key, then the getdata counter of the
    block hash set to 0 (replacing an earlier count, other hashes as they
    were), then one posted process_block; otherwise nothing changes. *)
Theorem check_work_submits (blk : block) (w : wallet)
    (hash_best_chain : sha256) (m : mining_manager) :
  let meets :=
    get_hash blk <= compact_target (bits (header blk)) \/
    is_proof_of_work blk = false in
  let current := hash_previous_block (header blk) = hash_best_chain in
  let w' := fst (check_work blk w hash_best_chain m) in
  let m' := snd (check_work blk w hash_best_chain m) in
  (meets /\ current ->
   mining_effects m'
     = mining_effects m ++ [keep_key; io_service_post (process_block blk)] /\
   request_counts w' !! get_hash blk = Some 0 /\
   forall h, h <> get_hash blk ->
             request_counts w' !! h = request_counts w !! h) /\
  (~ (meets /\ current) -> w' = w /\ m' = m).
Proof.
  intros meets current w' m'. subst meets current w' m'.
  unfold check_work.
  destruct (Z.ltb_spec (compact_target (bits (header blk))) (get_hash blk))
    as [Habove | Hbelow];
    destruct (is_proof_of_work blk) eqn:Hpow; simpl.
  1: { split; [intros [[Hle | Hf] _]; [lia | discriminate]|auto]. }
  all: destruct (Z.eqb_spec (hash_previous_block (header blk))
                   hash_best_chain) as [Heq | Hne]; simpl.
  1, 3, 5: split;
    [ intros _; split; [now rewrite <- app_assoc|];
      split; [apply lookup_insert_eq
             |intros h Hh; now apply lookup_insert_ne]
    | intros Hnot; exfalso; apply Hnot; split; [|exact Heq];
      first [right; reflexivity | left; lia] ].
  all: split; [intros [_ Hcur]; contradiction | auto].
Qed.

(** X16: how a call of increment_extra_nonce ends.  Without a first
    input in a first transaction it reads an empty vector and the block is
    as it was; with one, it fails the assertion exactly when the new
    script is longer than 100 bytes; otherwise it returns, and then the
    header keeps its parent hash, bits, nonce and time, the merkle root is
    build_merkle_tree of the block carrying the new script, and the other
    inputs and transactions are as they were. *)
Theorem increment_extra_nonce_outcomes (index_previous : block_index)
    (v : nonce_vars) :
  let blk := nv_block v in
  match increment_extra_nonce index_previous v with
  | undefined v' => coinbase_script blk = None /\ nv_block v' = blk
  | assert_failed v' =>
      is_Some (coinbase_script blk) /\
      100 < script_size (coinbase_script_for index_previous (extra_nonce v'))
  | returned v' =>
      let blk' := nv_block v' in
      is_Some (coinbase_script blk) /\
      script_size (coinbase_script_for index_previous (extra_nonce v'))
        <= 100 /\
      hash_previous_block (header blk') = hash_previous_block (header blk) /\
      bits (header blk') = bits (header blk) /\
      nonce (header blk') = nonce (header blk) /\
      header_timestamp (header blk') = header_timestamp (header blk) /\
      hash_merkle_root (header blk')
        = build_merkle_tree
            {| header := header blk; transactions := transactions blk' |} /\
      tail (transactions blk') = tail (transactions blk) /\
      (forall tx tx', head (transactions blk) = Some tx ->
         head (transactions blk') = Some tx' ->
         tail (transactions_in tx') = tail (transactions_in tx) /\
         transaction_time tx' = transaction_time tx)
  | thrown _ => False
  end.
Proof.
  intros blk. subst blk. rewrite increment_extra_nonce_unfold.
  unfold set_coinbase_script, coinbase_script.
  destruct (nv_block v) as [hd txs]. simpl.
  destruct txs as [|tx txs]; [split; reflexivity|].
  destruct (transactions_in tx) as [|i ins] eqn:Hins; [split; reflexivity|].
  destruct (Z.ltb_spec 100
              (script_size
                 (coinbase_script_for index_previous
                    (wrap32
                       ((if hash_previous v =? hash_previous_block hd
                         then extra_nonce v else 0) + 1)))));
    simpl; [split; [eauto | assumption]|].
  repeat (split; [solve [eauto]|]).
  intros tx0 tx' [= <-] [= <-]. simpl. now rewrite Hins.
Qed.

(** Candidate after candidate through increment_extra_nonce, the counter
    and the static carried from each call to the next. *)
Fixpoint increment_run (index_previous : block_index) (blks : list block)
    (n : Z) (previous : sha256) : Z * sha256 :=
  match blks with
  | [] => (n, previous)
  | blk :: rest =>
      let v' :=
        outcome_state
          (increment_extra_nonce index_previous
             {| nv_block := blk; extra_nonce := n;
                hash_previous := previous |}) in
      increment_run index_previous rest (extra_nonce v') (hash_previous v')
  end.

Lemma increment_run_same_parent index_previous p blks : forall n,
  Forall (fun blk => hash_previous_block (header blk) = p) blks ->
  0 <= n -> n + Z.of_nat (length blks) < 2 ^ 32 ->
  increment_run index_previous blks n p = (n + Z.of_nat (length blks), p).
Proof.
  induction blks as [|blk rest IH]; intros n Hall Hn Hlen.
  - simpl. now rewrite Z.add_0_r.
  - inversion Hall as [|? ? Hp Hrest]; subst. cbn [increment_run].
    destruct (increment_extra_nonce_vars index_previous
                {| nv_block := blk; extra_nonce := n;
                   hash_previous := hash_previous_block (header blk) |})
      as [Hc Hs].
    cbn [nv_block extra_nonce hash_previous] in Hc, Hs.
    rewrite Z.eqb_refl in Hc. rewrite Hc, Hs.
    cbn [length] in Hlen. rewrite wrap32_small by lia.
    rewrite IH by (auto; lia). f_equal. cbn [length]. lia.
Qed.

(** X17: over a run of candidates that all declare the parent [p], the
    counter counts the candidates: starting from a different remembered
    parent, the k-th candidate of the run carries the value k; starting
    from [p] itself at counter [n], it carries n + k; both as long as the
    value stays below 2^32.  The remembered parent is [p] afterwards. *)
Theorem increment_run_counts (index_previous : block_index)
    (blks : list block) (n : Z) (previous p : sha256) :
  Forall (fun blk => hash_previous_block (header blk) = p) blks ->
  blks <> [] ->
  (previous <> p -> Z.of_nat (length blks) < 2 ^ 32 ->
   increment_run index_previous blks n previous
   = (Z.of_nat (length blks), p)) /\
  (previous = p -> 0 <= n -> n + Z.of_nat (length blks) < 2 ^ 32 ->
   increment_run index_previous blks n previous
   = (n + Z.of_nat (length blks), p)).
Proof.
  intros Hall Hne. split.
  - intros Hprev Hlen. destruct blks as [|blk rest]; [congruence|].
    inversion Hall as [|? ? Hp Hrest]; subst. cbn [increment_run].
    destruct (increment_extra_nonce_vars index_previous
                {| nv_block := blk; extra_nonce := n;
                   hash_previous := previous |}) as [Hc Hs].
    cbn [nv_block extra_nonce hash_previous] in Hc, Hs.
    apply Z.eqb_neq in Hprev. rewrite Hprev in Hc. rewrite Hc, Hs.
    cbn [length] in Hlen. change (wrap32 (0 + 1)) with 1.
    rewrite increment_run_same_parent by (auto; lia).
    f_equal. cbn [length]. lia.
  - intros -> Hn Hlen. now apply increment_run_same_parent.
Qed.

End WithBlockOps.

Lemma increment_run_counts_witness :
  @increment_run example_block_ops {| height := 10 |}
    [example_block; example_block; example_block] 41 6
  = (3, 7).
Proof.
  apply (@increment_run_counts example_block_ops {| height := 10 |}
           [example_block; example_block; example_block] 41 6 7).
  - repeat constructor.
  - discriminate.
  - discriminate.
  - simpl. lia.
Defined.

End MiningExtras.

(** ** mining_manager.cpp: the proof-of-work state between calls *)

Module MiningStateMachine.
Import Configuration MiningManager MiningProofs MiningExtras.




End MiningStateMachine.

(** ** database/stack.cpp *)

Module DatabaseStack.

Inductive operation_mode_t :=
| operation_mode_interface
| operation_mode_storage.

(** stack::configuration, stack.hpp. *)
Record configuration := {
  m_port : Z;
  m_operation_mode : operation_mode_t
}.

Definition configuration_new : configuration :=
  {| m_port := 0; m_operation_mode := operation_mode_storage |}.

Definition set_port (val : Z) (c : configuration) : configuration :=
  {| m_port := val; m_operation_mode := m_operation_mode c |}.

Definition set_operation_mode (val : operation_mode_t) (c : configuration)
  : configuration :=
  {| m_port := m_port c; m_operation_mode := val |}.

(** Calls forwarded to the stack_impl object. *)
Inductive impl_call :=
| impl_start (config : configuration)
| impl_stop
| impl_join (contacts : list (string * Z))
| impl_leave
| impl_store (query : string)
| impl_find (query : string) (max_results : Z)
| impl_proxy (addr : string) (port : Z) (buf : list Z)
| impl_endpoints.

(** What stack_impl, which is not under [src/], answers. *)
Class StackImpl := {
  store_reply : string -> Z;
  find_reply : string -> Z -> Z;
  proxy_reply : string -> Z -> list Z -> Z;
  endpoints_reply : list (string * Z)
}.

(** [stack_impl_] is the pointer, seen as allocated or null. *)
Record stack := {
  stack_impl_ : bool;
  impl_calls : list impl_call
}.

Definition stack_new : stack := {| stack_impl_ := false; impl_calls := [] |}.

Definition forward (c : impl_call) (s : stack) : stack :=
  {| stack_impl_ := stack_impl_ s; impl_calls := impl_calls s ++ [c] |}.

(** Lines 38-56: throws std::runtime_error when already allocated. *)
Definition start (config : configuration) (s : stack) : outcome stack :=
  if stack_impl_ s then thrown s
  else returned {| stack_impl_ := true;
                   impl_calls := impl_calls s ++ [impl_start config] |}.

(** Lines 58-76: throws std::runtime_error when not allocated. *)
Definition stop (s : stack) : outcome stack :=
  if stack_impl_ s then
    returned {| stack_impl_ := false;
                impl_calls := impl_calls s ++ [impl_stop] |}
  else thrown s.

Definition join (contacts : list (string * Z)) (s : stack) : stack :=
  if stack_impl_ s then forward (impl_join contacts) s else s.

Definition leave (s : stack) : stack :=
  if stack_impl_ s then forward impl_leave s else s.

Section WithImpl.
Context `{StackImpl}.

Definition store (query : string) (s : stack) : Z * stack :=
  if stack_impl_ s then (store_reply query, forward (impl_store query) s)
  else (0, s).

Definition find (query : string) (max_results : Z) (s : stack)
  : Z * stack :=
  if stack_impl_ s then
    (find_reply query max_results, forward (impl_find query max_results) s)
  else (0, s).

Definition proxy (addr : string) (port : Z) (buf : list Z) (s : stack)
  : Z * stack :=
  if stack_impl_ s then
    (proxy_reply addr port buf, forward (impl_proxy addr port buf) s)
  else (0, s).

Definition endpoints (s : stack) : list (string * Z) * stack :=
  if stack_impl_ s then (endpoints_reply, forward impl_endpoints s)
  else ([], s).

(** A call of the public interface; a caller that catches the exception
    of start or stop goes on with the stack as it is. *)
Inductive api :=
| api_start (config : configuration)
| api_stop
| api_join (contacts : list (string * Z))
| api_leave
| api_store (query : string)
| api_find (query : string) (max_results : Z)
| api_proxy (addr : string) (port : Z) (buf : list Z)
| api_endpoints.

Definition step (s : stack) (a : api) : stack :=
  match a with
  | api_start config => outcome_state (start config s)
  | api_stop => outcome_state (stop s)
  | api_join contacts => join contacts s
  | api_leave => leave s
  | api_store query => snd (store query s)
  | api_find query n => snd (find query n s)
  | api_proxy addr port buf => snd (proxy addr port buf s)
  | api_endpoints => snd (endpoints s)
  end.

Definition run_api (ops : list api) (s : stack) : stack :=
  fold_left step ops s.

End WithImpl.

End DatabaseStack.

Module DatabaseStackProofs.
Import DatabaseStack.

(** Walks the forwarded calls: start only on a stopped implementation,
    everything else only on a started one.  [Some b]: no call was out of
    place and the implementation is started ([b = true]) or not at the
    end. *)
Fixpoint sessions (active : bool) (calls : list impl_call) : option bool :=
  match calls with
  | [] => Some active
  | impl_start _ :: rest => if active then None else sessions true rest
  | impl_stop :: rest => if active then sessions false rest else None
  | _ :: rest => if active then sessions true rest else None
  end.

Lemma sessions_app calls1 : forall active calls2,
  sessions active (calls1 ++ calls2) =
    match sessions active calls1 with
    | Some b => sessions b calls2
    | None => None
    end.
Proof.
  induction calls1 as [|c calls1 IH]; intros active calls2; [reflexivity|].
  destruct c, active; simpl; auto.
Qed.

Section WithImpl.
Context `{StackImpl}.

Lemma step_sessions s a :
  sessions false (impl_calls s) = Some (stack_impl_ s) ->
  sessions false (impl_calls (step s a)) = Some (stack_impl_ (step s a)).
Proof.
  intros Hs.
  destruct a; unfold step, start, stop, join, leave, store, find, proxy,
    endpoints, forward;
    destruct (stack_impl_ s) eqn:Ha; simpl; rewrite ?Ha; try exact Hs;
    rewrite sessions_app, Hs; reflexivity.
Qed.

(** X18: over any sequence of calls of the public interface on a new
    stack, also when failed starts and stops are caught and the caller
    goes on, the calls that reach stack_impl are well bracketed: starts
    and stops alternate beginning with a start, every other call lies
    between a start and the next stop, and the implementation is started
    at the end exactly when the pointer is set. *)
Theorem impl_calls_bracketed (ops : list api) :
  sessions false (impl_calls (run_api ops stack_new))
  = Some (stack_impl_ (run_api ops stack_new)).
Proof.
  unfold run_api.
  assert (forall s, sessions false (impl_calls s) = Some (stack_impl_ s) ->
            sessions false (impl_calls (fold_left step ops s))
            = Some (stack_impl_ (fold_left step ops s))) as Hgen.
  { induction ops as [|a ops IH]; intros s Hs; [exact Hs|].
    simpl. apply IH. now apply step_sessions. }
  apply Hgen. reflexivity.
Qed.

(** X19: a stack can be started, used, stopped and started again: from a
    stack that is not started, start returns; a second start then throws
    and leaves the implementation running; store forwards the query and
    hands back the reply of the implementation; stop returns, after which
    store answers 0 without forwarding, a second stop throws, and start
    returns again. *)
Theorem stack_lifecycle (c c' : configuration) (q : string) (s : stack) :
  stack_impl_ s = false ->
  exists s1 s2 s3,
    start c s = returned s1 /\
    start c' s1 = thrown s1 /\
    store q s1 = (store_reply q, forward (impl_store q) s1) /\
    stop (forward (impl_store q) s1) = returned s2 /\
    impl_calls s2 = impl_calls s ++ [impl_start c; impl_store q; impl_stop] /\
    store q s2 = (0, s2) /\
    stop s2 = thrown s2 /\
    start c' s2 = returned s3 /\ stack_impl_ s3 = true.
Proof.
  intros Hs. unfold start, stop, store. rewrite Hs.
  eexists _, _, _. simpl. repeat split.
  cbn. now rewrite <- !app_assoc.
Qed.

End WithImpl.

Definition example_impl : StackImpl :=
  {| store_reply := fun _ => 7;
     find_reply := fun _ _ => 8;
     proxy_reply := fun _ _ _ => 9;
     endpoints_reply := [] |}.

Lemma stack_lifecycle_witness :
  exists s1 s2 s3,
    start configuration_new stack_new = returned s1 /\
    start configuration_new s1 = thrown s1 /\
    @store example_impl "key" s1
      = (7, forward (impl_store "key") s1) /\
    stop (forward (impl_store "key") s1) = returned s2 /\
    impl_calls s2
      = impl_calls stack_new
          ++ [impl_start configuration_new; impl_store "key"; impl_stop] /\
    @store example_impl "key" s2 = (0, s2) /\
    stop s2 = thrown s2 /\
    start configuration_new s2 = returned s3 /\ stack_impl_ s3 = true.
Proof.
  apply (@stack_lifecycle example_impl configuration_new configuration_new
           "key"%string stack_new).
  reflexivity.
Defined.

End DatabaseStackProofs.
